(** * School calendar generator: a shallow embedding of [make_calendar.py]

    The script reads a term description, validates its events, prints a
    weekly view and builds an iCalendar document.  This file embeds the
    functions of the script as Rocq functions and states what they do.

    Conventions of the embedding.
    - A Python [str] is a [string]: the sequence of its UTF-8 bytes.  All
      the characters the script inspects (backslash, comma, semicolon, colon,
      CR, LF, digits) are ASCII, and on UTF-8 text a search for an ASCII
      pattern finds the same occurrences as on code points; the order of
      byte strings is the order of code-point strings.
    - A raised exception is a value of [exn]; a computation that may raise
      returns a [result].
    - A [datetime.date] is represented by its proleptic Gregorian ordinal,
      the number [toordinal] returns; the library supports the ordinals
      [1 .. 3652059] (0001-01-01 to 9999-12-31) and raises outside.
    - Lists and dicts are objects in a store, so that sorting in place is a
      write to the store.
    - The built-in functions the script calls ([int], [hash], [time],
      [strftime]) are those of CPython 3.11 on a 64-bit Linux system with
      glibc: the Unicode tables of [int], the hash function, the range of
      a C [int] and the way [%Y] is written are taken from there. *)

From Stdlib Require Import ZArith Lia Ascii.
From Stdlib Require String.
From stdpp Require Import base option list sorting gmap strings pretty.

Local Open Scope Z_scope.

(* ===================================================================== *)
(** * Part I: the embedding *)
(* ===================================================================== *)

(** ** Exceptions and results *)

(** The exceptions the script can end with.  [ValueError] is the one the
    script raises itself, with the message it formats; the others are raised
    by the Python runtime inside [parse_hhmm], [first_matching_date] and the
    subscripts, and carry what the runtime puts in them.  [UnpackError],
    [IntLiteralError], [TimeFieldError] and [DateRangeError] are
    [ValueError]s of the runtime (see [is_ValueError]); [OverflowError] is
    a class of its own. *)
Inductive exn : Type :=
| ValueError (msg : string)
| UnpackError (got : nat)
| IntLiteralError (lit : string)
| TimeFieldError (field : string)
| DateRangeError (n : Z)
| KeyError (key : string)
| TypeError (what : string)
| OverflowError (msg : string).

(** [isinstance(e, ValueError)]. *)
Definition is_ValueError (e : exn) : bool :=
  match e with
  | ValueError _ | UnpackError _ | IntLiteralError _ | TimeFieldError _ | DateRangeError _ => true
  | KeyError _ | TypeError _ | OverflowError _ => false
  end.

Inductive result (A : Type) : Type :=
| Ok (a : A)
| Raise (e : exn).
Arguments Ok {A} a.
Arguments Raise {A} e.

Global Instance result_ret : MRet result := @Ok.
Global Instance result_bind : MBind result := λ A B f m,
  match m with
  | Ok a => f a
  | Raise e => Raise e
  end.
Global Instance result_fmap : FMap result := λ A B f m,
  match m with
  | Ok a => Ok (f a)
  | Raise e => Raise e
  end.

(** [for x in l: body x] for a body that may raise. *)
Fixpoint for_each {A : Type} (body : A → result unit) (l : list A) : result unit :=
  match l with
  | [] => Ok tt
  | x :: l' => body x ≫= λ _, for_each body l'
  end.

(** [[f x for x in l]] for an [f] that may raise. *)
Fixpoint map_result {A B : Type} (f : A → result B) (l : list A) : result (list B) :=
  match l with
  | [] => Ok []
  | x :: l' => y ← f x; ys ← map_result f l'; Ok (y :: ys)
  end.

(** ** Python string operations *)

Definition CR : ascii := "013"%char.
Definition LF : ascii := "010"%char.
Definition BACKSLASH : ascii := "\"%char.

Definition str1 (c : ascii) : string := String c "".
Definition CRLF : string := String CR (str1 LF).

(** [smap f s]: every character [c] of [s] replaced by the string [f c]. *)
Fixpoint smap (f : ascii → string) (s : string) : string :=
  match s with
  | EmptyString => ""
  | String c r => f c +:+ smap f r
  end.

(** [str.replace(old, new)] for a non-empty [old]: occurrences are found
    from the left and do not overlap.  [skip] counts the characters of a
    matched occurrence still to pass over. *)
Fixpoint str_replace_go (old new : string) (skip : nat) (s : string) : string :=
  match s with
  | EmptyString => ""
  | String c r =>
      match skip with
      | S k => str_replace_go old new k r
      | O =>
          if String.prefix old s
          then new +:+ str_replace_go old new (String.length old - 1)%nat r
          else String c (str_replace_go old new 0 r)
      end
  end.

(** [str.replace]; for an empty [old] Python puts [new] before every
    character and at the end. *)
Definition str_replace (old new s : string) : string :=
  match old with
  | EmptyString => new +:+ smap (λ c, String c new) s
  | _ => str_replace_go old new 0 s
  end.

(** [value.split(sep)] for a one-character separator: [n] separators give
    [n + 1] parts. *)
Fixpoint str_split (sep : ascii) (s : string) : list string :=
  match s with
  | EmptyString => [""]
  | String c r =>
      if Ascii.eqb c sep then "" :: str_split sep r
      else match str_split sep r with
           | p :: ps => String c p :: ps
           | [] => [str1 c]
           end
  end.

(** [sep.join(parts)]. *)
Fixpoint str_join (sep : string) (parts : list string) : string :=
  match parts with
  | [] => ""
  | [p] => p
  | p :: ps => p +:+ sep +:+ str_join sep ps
  end.

(** [c * n] for a character. *)
Fixpoint repeat_char (c : ascii) (n : nat) : string :=
  match n with
  | O => ""
  | S k => String c (repeat_char c k)
  end.

(** The number [n] in decimal, at least two digits wide (the month, day,
    hour, minute and second of [strftime] and [isoformat]) and at least
    four digits wide (the year of [isoformat]). *)
Definition pad2 (n : Z) : string :=
  if n <? 10 then "0" +:+ pretty n else pretty n.
Definition pad4 (n : Z) : string :=
  if n <? 10 then "000" +:+ pretty n
  else if n <? 100 then "00" +:+ pretty n
  else if n <? 1000 then "0" +:+ pretty n
  else pretty n.

(** *** The code points of a string

    A string holds the UTF-8 bytes of a Python [str]; [code_points] gives
    the characters back.  (On bytes that are not UTF-8, which stand for no
    [str], the result is of no interest.) *)

Definition byte_val (c : ascii) : Z := Z.of_nat (nat_of_ascii c).

(** [need] continuation bytes are still to come for the character whose
    leading bits are [acc]. *)
Fixpoint code_points_go (need : nat) (acc : Z) (s : string) : list Z :=
  match s with
  | EmptyString => []
  | String c r =>
      let b := byte_val c in
      match need with
      | O =>
          if b <? 128 then b :: code_points_go 0 0 r
          else if b <? 224 then code_points_go 1 (b - 192) r
          else if b <? 240 then code_points_go 2 (b - 224) r
          else code_points_go 3 (b - 240) r
      | S k =>
          let acc := 64 * acc + (b - 128) in
          match k with
          | O => acc :: code_points_go 0 0 r
          | _ => code_points_go k acc r
          end
      end
  end.

Definition code_points (s : string) : list Z := code_points_go 0 0 s.

Fixpoint is_ascii (s : string) : bool :=
  match s with
  | EmptyString => true
  | String c r => (byte_val c <? 128) && is_ascii r
  end.

(** *** [int(s)] on a string

    [int] first turns the string into ASCII
    ([_PyUnicode_TransformDecimalAndSpaceToASCII]): an ASCII string is
    taken as it is; in any other string a character below 127 is kept, a
    Unicode white space becomes a blank, a Unicode decimal digit becomes
    the ASCII digit of its value, and the first character of another kind
    becomes a question mark, at which the string is cut.  The ASCII text
    is then read by [PyLong_FromString]: white space ([Py_ISSPACE]) is
    stripped at both ends, then come an optional sign and decimal digits,
    where single underscores may separate digits.  A literal of more than
    [4300] digits is refused (the interpreter's default limit).

    The tables are those of Unicode 14.0, the version of CPython 3.11:
    the white space of [Py_UNICODE_ISSPACE] above the ASCII range, and
    the code point of the digit zero of each of the 66 sets of decimal
    digits ([Py_UNICODE_TODECIMAL]), each set being ten consecutive code
    points. *)

Definition UNICODE_SPACES : list Z :=
  [133; 160; 5760; 8192; 8193; 8194; 8195; 8196; 8197; 8198; 8199; 8200; 8201; 8202;
   8232; 8233; 8239; 8287; 12288].

Definition DECIMAL_ZEROS : list Z :=
  [48; 1632; 1776; 1984; 2406; 2534; 2662; 2790; 2918; 3046; 3174; 3302; 3430; 3558;
   3664; 3792; 3872; 4160; 4240; 6112; 6160; 6470; 6608; 6784; 6800; 6992; 7088; 7232;
   7248; 42528; 43216; 43264; 43472; 43504; 43600; 44016; 65296; 66720; 68912; 69734;
   69872; 69942; 70096; 70384; 70736; 70864; 71248; 71360; 71472; 71904; 72016; 72784;
   73040; 73120; 92768; 92864; 93008; 120782; 120792; 120802; 120812; 120822; 123200;
   123632; 125264; 130032].

Definition unicode_isspace (ch : Z) : bool := bool_decide (ch ∈ UNICODE_SPACES).

Definition unicode_todecimal (ch : Z) : option Z :=
  (λ zero, ch - zero) <$> List.find (λ zero, (zero <=? ch) && (ch <? zero + 10)) DECIMAL_ZEROS.

Definition ascii_of_Z (n : Z) : ascii := ascii_of_nat (Z.to_nat n).

Fixpoint transform_go (chars : list Z) : string :=
  match chars with
  | [] => ""
  | ch :: rest =>
      if ch <? 127 then String (ascii_of_Z ch) (transform_go rest)
      else if unicode_isspace ch then String " " (transform_go rest)
      else match unicode_todecimal ch with
           | Some d => String (ascii_of_Z (48 + d)) (transform_go rest)
           | None => "?"
           end
  end.

Definition transform_decimal_and_space_to_ascii (s : string) : string :=
  if is_ascii s then s else transform_go (code_points s).

(** [Py_ISSPACE]: tab, line feed, vertical tab, form feed, carriage
    return and blank. *)
Definition is_space (c : ascii) : bool :=
  let n := nat_of_ascii c in
  ((9 <=? n)%nat && (n <=? 13)%nat) || (n =? 32)%nat.

(** The value of an ASCII digit. *)
Definition digit_val (c : ascii) : option Z :=
  let n := Z.of_nat (nat_of_ascii c) in
  if (48 <=? n) && (n <=? 57) then Some (n - 48) else None.

Fixpoint lstrip (s : string) : string :=
  match s with
  | EmptyString => ""
  | String c r => if is_space c then lstrip r else s
  end.

Fixpoint rstrip (s : string) : string :=
  match s with
  | EmptyString => ""
  | String c r =>
      match rstrip r with
      | EmptyString => if is_space c then "" else str1 c
      | r' => String c r'
      end
  end.

Definition strip (s : string) : string := rstrip (lstrip s).

(** The digits of a literal: [after_digit] tells whether the previous
    character was a digit (an underscore is allowed only then, and the
    literal must end on a digit); [n] counts the digits read. *)
Fixpoint int_digits (acc : Z) (after_digit : bool) (n : nat) (s : string) : option Z :=
  match s with
  | EmptyString => if after_digit && (n <=? 4300)%nat then Some acc else None
  | String c r =>
      match digit_val c with
      | Some v => int_digits (10 * acc + v) true (S n) r
      | None =>
          if Ascii.eqb c "_" && after_digit then int_digits acc false n r
          else None
      end
  end.

Definition int_literal (s : string) : option Z :=
  match strip s with
  | String "+" r => int_digits 0 false 0 r
  | String "-" r => Z.opp <$> int_digits 0 false 0 r
  | r => int_digits 0 false 0 r
  end.

Definition int (s : string) : result Z :=
  match int_literal (transform_decimal_and_space_to_ascii s) with
  | Some n => Ok n
  | None => Raise (IntLiteralError s)
  end.

(** ** [datetime.time] and [datetime.date] *)

Record time : Type := mk_time { hour : Z; minute : Z; second : Z }.

(** An argument converted to a C [int], as the constructors of the C
    implementation of [datetime] take theirs: the number must fit a C
    [long] (64 bits) and then an [int] (32 bits). *)
Definition as_c_int (n : Z) : result Z :=
  if (n <? - 2 ^ 63) || (2 ^ 63 <=? n)
  then Raise (OverflowError "Python int too large to convert to C long")
  else if 2 ^ 31 <=? n then Raise (OverflowError "signed integer is greater than maximum")
  else if n <? - 2 ^ 31 then Raise (OverflowError "signed integer is less than minimum")
  else Ok n.

(** [time(h, m)]: both arguments are converted, the hour first; then the
    constructor checks the hour, then the minute. *)
Definition time_of (h m : Z) : result time :=
  h ← as_c_int h;
  m ← as_c_int m;
  if negb ((0 <=? h) && (h <=? 23)) then Raise (TimeFieldError "hour")
  else if negb ((0 <=? m) && (m <=? 59)) then Raise (TimeFieldError "minute")
  else Ok (mk_time h m 0).

Record date : Type := mk_date { toordinal : Z }.

Definition MAXORDINAL : Z := 3652059.

Definition valid_date (d : date) : Prop := 1 <= toordinal d <= MAXORDINAL.

(** [date.fromordinal(n)] raises outside of [1 .. MAXORDINAL]. *)
Definition fromordinal (n : Z) : result date :=
  if (1 <=? n) && (n <=? MAXORDINAL) then Ok (mk_date n)
  else Raise (DateRangeError n).

(** [d.weekday()]: Monday is 0 and Sunday is 6; ordinal 1 is a Monday. *)
Definition weekday (d : date) : Z := (toordinal d + 6) mod 7.

Definition is_leap (y : Z) : bool :=
  (y mod 4 =? 0) && (negb (y mod 100 =? 0) || (y mod 400 =? 0)).

Definition days_before_year (y : Z) : Z :=
  let y := y - 1 in y * 365 + y / 4 - y / 100 + y / 400.

Definition DAYS_IN_MONTH : list Z := [31; 28; 31; 30; 31; 30; 31; 31; 30; 31; 30; 31].

Definition days_in_month (y m : Z) : Z :=
  if (m =? 2) && is_leap y then 29
  else default 0 (DAYS_IN_MONTH !! Z.to_nat (m - 1)).

Definition days_before_month (y m : Z) : Z :=
  foldr Z.add 0 (take (Z.to_nat (m - 1)) DAYS_IN_MONTH)
  + (if (2 <? m) && is_leap y then 1 else 0).

(** [date(y, m, d).toordinal()]. *)
Definition ymd2ord (y m d : Z) : Z :=
  days_before_year y + days_before_month y m + d.

(** [date(y, m, d)]. *)
Definition date_of (y m d : Z) : result date :=
  if negb ((1 <=? y) && (y <=? 9999)) then Raise (DateRangeError y)
  else if negb ((1 <=? m) && (m <=? 12)) then Raise (DateRangeError m)
  else if negb ((1 <=? d) && (d <=? days_in_month y m)) then Raise (DateRangeError d)
  else Ok (mk_date (ymd2ord y m d)).

(** Year, month and day of an ordinal, as the library computes them. *)
Definition ord2ymd (n : Z) : Z * Z * Z :=
  let n := n - 1 in
  let n400 := n / 146097 in
  let n := n mod 146097 in
  let n100 := n / 36524 in
  let n := n mod 36524 in
  let n4 := n / 1461 in
  let n := n mod 1461 in
  let n1 := n / 365 in
  let n := n mod 365 in
  let year := n400 * 400 + 1 + n100 * 100 + n4 * 4 + n1 in
  if (n1 =? 4) || (n100 =? 4) then (year - 1, 12, 31)
  else
    let leapyear := (n1 =? 3) && (negb (n4 =? 24) || (n100 =? 3)) in
    let month := Z.shiftr (n + 50) 5 in
    let preceding :=
      foldr Z.add 0 (take (Z.to_nat (month - 1)) DAYS_IN_MONTH)
      + (if (2 <? month) && leapyear then 1 else 0) in
    if n <? preceding then
      let month := month - 1 in
      let preceding :=
        preceding - (default 0 (DAYS_IN_MONTH !! Z.to_nat (month - 1))
                     + (if (month =? 2) && leapyear then 1 else 0)) in
      (year, month, n - preceding + 1)
    else (year, month, n - preceding + 1).

(** [d.strftime("%Y%m%d")] and [str(d)].  [str] always writes the year
    with four digits; [strftime] leaves [%Y] to the C library, and glibc
    writes the year without padding, so that a year below 1000 has fewer
    than four digits. *)
Definition date_basic (d : date) : string :=
  let '(y, m, dd) := ord2ymd (toordinal d) in pretty y +:+ pad2 m +:+ pad2 dd.
Definition date_iso (d : date) : string :=
  let '(y, m, dd) := ord2ymd (toordinal d) in pad4 y +:+ "-" +:+ pad2 m +:+ "-" +:+ pad2 dd.

(** [datetime.combine(d, t).strftime("%Y%m%dT%H%M%S")]. *)
Definition strftime (d : date) (t : time) : string :=
  date_basic d +:+ "T" +:+ pad2 (hour t) +:+ pad2 (minute t) +:+ pad2 (second t).

(** ** The script: constants and the small functions *)

Definition DAY_MAP : gmap string Z :=
  list_to_map [("MO", 0); ("TU", 1); ("WE", 2); ("TH", 3); ("FR", 4); ("SA", 5); ("SU", 6)].

(** [DAY_MAP[d]]: a missing key raises [KeyError]. *)
Definition day_index (d : string) : result Z :=
  match DAY_MAP !! d with
  | Some i => Ok i
  | None => Raise (KeyError d)
  end.

(** [parse_hhmm]: the unpacking [hh, mm = value.split(":")] needs exactly
    two parts; then [int(hh)], [int(mm)] and the [time] constructor. *)
Definition parse_hhmm (value : string) : result time :=
  match str_split ":" value with
  | [hh; mm] => h ← int hh; m ← int mm; time_of h m
  | parts => Raise (UnpackError (length parts))
  end.

(** [s or ""] on a string. *)
Definition or_empty (s : string) : string :=
  match s with
  | EmptyString => ""
  | _ => s
  end.

Definition ics_escape (s : string) : string :=
  let s := or_empty s in
  str_replace ";" "\;"
    (str_replace "," "\,"
      (str_replace (str1 LF) "\n"
        (str_replace (str1 CR) (str1 LF)
          (str_replace CRLF (str1 LF)
            (str_replace "\" "\\" s))))).

(** The loop of [first_matching_date], started at [d] with [n] days of the
    window left, [d] included: [n = term_end - d + 1] when [d <= term_end]
    and [n = 0] when the guard [d <= term_end] fails.  The step
    [d.fromordinal(d.toordinal() + 1)] is taken before the guard is tested
    again, and raises past the last date. *)
Fixpoint scan_days (n : nat) (wanted : gset Z) (d : date) : result (option date) :=
  match n with
  | O => Ok None
  | S n' =>
      if bool_decide (weekday d ∈ wanted) then Ok (Some d)
      else d' ← fromordinal (toordinal d + 1); scan_days n' wanted d'
  end.

Definition first_matching_date (term_start term_end : date) (days : list string)
    : result (option date) :=
  idx ← map_result day_index days;
  let wanted : gset Z := list_to_set idx in
  scan_days (Z.to_nat (toordinal term_end - toordinal term_start + 1)) wanted term_start.

(** ** Events

    An event is a JSON object; a key that is absent is [None]. *)
Record event : Type := mk_event {
  title : option string;
  days : option (list string);
  start : option string;
  end_ : option string;
  location : option string;
  notes : option string
}.

(** [e[key]] and [e.get(key, "")]. *)
Definition getitem {A : Type} (key : string) (field : option A) : result A :=
  match field with
  | Some v => Ok v
  | None => Raise (KeyError key)
  end.
Definition get_or_empty (field : option string) : string := default "" field.

(** ** Validation (the loop at the head of [main]) *)

Definition missing_keys_message (i : nat) : string :=
  "Event #" +:+ pretty i +:+ " is missing required keys (title/days/start/end).".
Definition invalid_day_message (i : nat) (d : string) : string :=
  "Event #" +:+ pretty i +:+ " has invalid day '" +:+ d +:+ "'. Use MO,TU,WE,TH,FR,SA,SU.".

Definition check_day (i : nat) (d : string) : result unit :=
  match DAY_MAP !! d with
  | Some _ => Ok tt
  | None => Raise (ValueError (invalid_day_message i d))
  end.

Definition validate_event (i : nat) (e : event) : result unit :=
  match title e, days e, start e, end_ e with
  | Some _, Some ds, Some s, Some en =>
      _ ← for_each (check_day i) ds;
      _ ← parse_hhmm s;
      _ ← parse_hhmm en;
      Ok tt
  | _, _, _, _ => Raise (ValueError (missing_keys_message i))
  end.

(** [for i, e in enumerate(events, start=i): ...]. *)
Fixpoint validate_from (i : nat) (events : list event) : result unit :=
  match events with
  | [] => Ok tt
  | e :: rest => _ ← validate_event i e; validate_from (S i) rest
  end.

Definition validate (events : list event) : result unit := validate_from 1 events.

(** ** Building the calendar *)

(** The tuple [hash] is applied to for the UID: title, days, the two time
    strings and [str] of the term bounds. *)
Definition hash_key : Type := string * list string * string * string * string * string.

(** Python's [hash] on such a tuple.  Its values depend on the interpreter
    process (string hashing is keyed per process), so the function is an
    argument of [build_ics]; a [Py_hash_t] has 64 bits. *)
Definition py_hash : Type := hash_key → Z.
Definition hash_range (h : py_hash) : Prop := ∀ k, - 2 ^ 63 <= h k < 2 ^ 63.

(** *** The hash function of CPython 3.11

    The hash of a [str] is SipHash-1-3 of the bytes of its internal
    representation (one, two or four bytes for each character, by the
    largest character, in little-endian order), under a 128-bit key that
    the interpreter draws when it starts: at random, or from the
    environment variable [PYTHONHASHSEED] through a linear congruential
    generator.  The hash of a tuple combines the hashes of its items in
    the manner of xxHash.  All arithmetic is on 64-bit words. *)

Definition w64 (x : Z) : Z := x mod 2 ^ 64.

Definition rotl (x b : Z) : Z := w64 (Z.lor (Z.shiftl x b) (Z.shiftr x (64 - b))).

Definition signed64 (x : Z) : Z := if x <? 2 ^ 63 then x else x - 2 ^ 64.

(** [HALF_ROUND] and [SINGLE_ROUND] of [pyhash.c]. *)
Definition half_round (a b c d s t : Z) : Z * Z * Z * Z :=
  let a := w64 (a + b) in
  let c := w64 (c + d) in
  let b := Z.lxor (rotl b s) a in
  let d := Z.lxor (rotl d t) c in
  (rotl a 32, b, c, d).

Definition single_round (v : Z * Z * Z * Z) : Z * Z * Z * Z :=
  let '(v0, v1, v2, v3) := v in
  let '(v0, v1, v2, v3) := half_round v0 v1 v2 v3 13 16 in
  let '(v2, v1, v0, v3) := half_round v2 v1 v0 v3 17 21 in
  (v0, v1, v2, v3).

(** The word that has the given bytes, the lowest first. *)
Definition le_word (bytes : list Z) : Z := foldr (λ b w, b + 256 * w) 0 bytes.

Definition sip_block (v : Z * Z * Z * Z) (mi : Z) : Z * Z * Z * Z :=
  let '(v0, v1, v2, v3) := v in
  let '(v0, v1, v2, v3) := single_round (v0, v1, v2, Z.lxor v3 mi) in
  (Z.lxor v0 mi, v1, v2, v3).

(** The loop over the blocks of eight bytes; what is left has fewer. *)
Fixpoint sip_blocks (v : Z * Z * Z * Z) (src : list Z) : (Z * Z * Z * Z) * list Z :=
  match src with
  | b0 :: b1 :: b2 :: b3 :: b4 :: b5 :: b6 :: b7 :: rest =>
      sip_blocks (sip_block v (le_word [b0; b1; b2; b3; b4; b5; b6; b7])) rest
  | tail => (v, tail)
  end.

Definition siphash13 (k0 k1 : Z) (src : list Z) : Z :=
  let v := (Z.lxor k0 0x736f6d6570736575, Z.lxor k1 0x646f72616e646f6d,
            Z.lxor k0 0x6c7967656e657261, Z.lxor k1 0x7465646279746573) in
  let '(v, tail) := sip_blocks v src in
  let b := Z.lor (w64 (Z.shiftl (Z.of_nat (length src)) 56)) (le_word tail) in
  let '(v0, v1, v2, v3) := sip_block v b in
  let '(v0, v1, v2, v3) :=
    single_round (single_round (single_round (v0, v1, Z.lxor v2 0xff, v3))) in
  Z.lxor (Z.lxor v0 v1) (Z.lxor v2 v3).

(** [lcg_urandom]: the bytes of the secret for a seed. *)
Fixpoint lcg_urandom (x : Z) (n : nat) : list Z :=
  match n with
  | O => []
  | S k =>
      let x := (x * 214013 + 2531011) mod 2 ^ 32 in
      Z.land (Z.shiftr x 16) 255 :: lcg_urandom x k
  end.

(** The key [(k0, k1)] of a process started with [PYTHONHASHSEED=seed];
    the seed 0 turns the keying off. *)
Definition hash_secret (seed : Z) : Z * Z :=
  if seed =? 0 then (0, 0)
  else
    let bytes := lcg_urandom seed 24 in
    (le_word (take 8 bytes), le_word (take 8 (drop 8 bytes))).

Definition le_bytes (n : nat) (x : Z) : list Z :=
  (λ i, Z.land (Z.shiftr x (8 * Z.of_nat i)) 255) <$> seq 0 n.

(** The bytes of the internal representation of a [str]. *)
Definition str_data (s : string) : list Z :=
  let chars := code_points s in
  let top := foldr Z.max 0 chars in
  if top <? 256 then chars
  else if top <? 65536 then chars ≫= le_bytes 2
  else chars ≫= le_bytes 4.

(** [hash(s)] for a [str]: the empty string has the hash 0, and the value
    -1 is kept for errors. *)
Definition str_hash (secret : Z * Z) (s : string) : Z :=
  match str_data s with
  | [] => 0
  | data =>
      let x := signed64 (siphash13 secret.1 secret.2 data) in
      if x =? -1 then -2 else x
  end.

Definition XXPRIME_1 : Z := 11400714785074694791.
Definition XXPRIME_2 : Z := 14029467366897019727.
Definition XXPRIME_5 : Z := 2870177450012600261.

(** [hash(t)] for a tuple, from the hashes of its items. *)
Definition tuple_hash (lanes : list Z) : Z :=
  let acc :=
    foldl (λ acc lane, w64 (rotl (w64 (acc + w64 lane * XXPRIME_2)) 31 * XXPRIME_1))
      XXPRIME_5 lanes in
  let acc := w64 (acc + Z.lxor (Z.of_nat (length lanes)) (Z.lxor XXPRIME_5 3527539)) in
  if acc =? 2 ^ 64 - 1 then 1546275796 else signed64 acc.

(** [hash] on the tuple of the UID, in a process with the given key. *)
Definition cpython_hash (secret : Z * Z) : py_hash := λ k,
  let '(ti, ds, s, en, ts, te) := k in
  tuple_hash [str_hash secret ti; tuple_hash (str_hash secret <$> ds);
              str_hash secret s; str_hash secret en;
              str_hash secret ts; str_hash secret te].

Definition uid_of (h : py_hash) (k : hash_key) : string :=
  pretty (Z.abs (h k)) +:+ "@school-calendar".

Definition event_key (term_start term_end : date) (ti : string) (ds : list string)
    (s en : string) : hash_key :=
  (ti, ds, s, en, date_iso term_start, date_iso term_end).

Definition ics_header (term : string) : list string :=
  [ "BEGIN:VCALENDAR";
    "VERSION:2.0";
    "PRODID:-//School Calendar Generator//EN";
    "CALSCALE:GREGORIAN";
    "X-WR-CALNAME:" +:+ ics_escape term ].

(** The body of the loop of [build_ics] for one event: the lines it adds. *)
Definition event_lines (h : py_hash) (term_start term_end : date) (until : string)
    (e : event) : result (list string) :=
  ti ← getitem "title" (title e);
  ds ← getitem "days" (days e);
  s ← getitem "start" (start e);
  start_t ← parse_hhmm s;
  en ← getitem "end" (end_ e);
  end_t ← parse_hhmm en;
  let place := get_or_empty (location e) in
  let nts := get_or_empty (notes e) in
  first ← first_matching_date term_start term_end ds;
  match first with
  | None => Ok []
  | Some first =>
      let dtstart := strftime first start_t in
      let dtend := strftime first end_t in
      let uid := uid_of h (event_key term_start term_end ti ds s en) in
      Ok [ "BEGIN:VEVENT";
           "UID:" +:+ uid;
           "SUMMARY:" +:+ ics_escape ti;
           "DTSTART:" +:+ dtstart;
           "DTEND:" +:+ dtend;
           "RRULE:FREQ=WEEKLY;BYDAY=" +:+ str_join "," ds +:+ ";UNTIL=" +:+ until;
           "LOCATION:" +:+ ics_escape place;
           "DESCRIPTION:" +:+ ics_escape nts;
           "END:VEVENT" ]
  end.

Fixpoint events_lines (h : py_hash) (term_start term_end : date) (until : string)
    (events : list event) : result (list string) :=
  match events with
  | [] => Ok []
  | e :: rest =>
      ls ← event_lines h term_start term_end until e;
      more ← events_lines h term_start term_end until rest;
      Ok (ls ++ more)
  end.

(** The lines of the document, before they are joined. *)
Definition ics_lines (h : py_hash) (term : string) (term_start term_end : date)
    (events : list event) : result (list string) :=
  let until := strftime term_end (mk_time 23 59 59) in
  body ← events_lines h term_start term_end until events;
  Ok (ics_header term ++ body ++ ["END:VCALENDAR"]).

Definition build_ics (h : py_hash) (term : string) (term_start term_end : date)
    (events : list event) : result string :=
  lines ← ics_lines h term term_start term_end events;
  Ok (str_join CRLF lines +:+ CRLF).

(** ** The store: list and dict objects, and the standard output *)

Definition loc : Type := positive.

Inductive obj : Type :=
| OList (items : list loc)
| ODict (e : event).

Record store : Type := mk_store {
  heap : gmap loc obj;
  stdout : list string
}.

(** A computation on the store that may raise; the store it leaves is
    returned in both cases. *)
Definition M (A : Type) : Type := store → result A * store.

Definition m_ret {A : Type} (a : A) : M A := λ σ, (Ok a, σ).
Definition m_bind {A B : Type} (m : M A) (k : A → M B) : M B := λ σ,
  match m σ with
  | (Ok a, σ') => k a σ'
  | (Raise e, σ') => (Raise e, σ')
  end.
Definition m_lift {A : Type} (r : result A) : M A := λ σ, (r, σ).

Notation "'do' x <- m ; k" := (m_bind m (λ x, k))
  (at level 10, x name, m at level 100, k at level 200).
Notation "m ;; k" := (m_bind m (λ _, k))
  (at level 100, k at level 200, right associativity).

Fixpoint m_for_each {A : Type} (body : A → M unit) (l : list A) : M unit :=
  match l with
  | [] => m_ret tt
  | x :: l' => body x ;; m_for_each body l'
  end.

Fixpoint m_map {A B : Type} (f : A → M B) (l : list A) : M (list B) :=
  match l with
  | [] => m_ret []
  | x :: l' => do y <- f x; do ys <- m_map f l'; m_ret (y :: ys)
  end.

Fixpoint m_filter {A : Type} (p : A → M bool) (l : list A) : M (list A) :=
  match l with
  | [] => m_ret []
  | x :: l' =>
      do b <- p x; do ys <- m_filter p l';
      m_ret (if b then x :: ys else ys)
  end.

Definition read_list (l : loc) : M (list loc) := λ σ,
  match heap σ !! l with
  | Some (OList xs) => (Ok xs, σ)
  | _ => (Raise (TypeError "list"), σ)
  end.

Definition read_dict (l : loc) : M event := λ σ,
  match heap σ !! l with
  | Some (ODict e) => (Ok e, σ)
  | _ => (Raise (TypeError "dict"), σ)
  end.

(** A new object gets an address no object has. *)
Definition alloc (o : obj) : M loc := λ σ,
  let l := fresh (dom (heap σ)) in
  (Ok l, mk_store (<[l := o]> (heap σ)) (stdout σ)).

Definition write (l : loc) (o : obj) : M unit := λ σ,
  (Ok tt, mk_store (<[l := o]> (heap σ)) (stdout σ)).

(** [print(s)]: one entry of the output per call. *)
Definition print (s : string) : M unit := λ σ,
  (Ok tt, mk_store (heap σ) (stdout σ ++ [s])).

(** The events of the list object [events], in order. *)
Definition load_events (events : loc) : M (list event) :=
  do refs <- read_list events; m_map read_dict refs.

(** ** The weekly view *)

Definition ORDER : list string := ["MO"; "TU"; "WE"; "TH"; "FR"; "SA"; "SU"].

(** [[e for e in events if d in e["days"]]]: a new list object holding
    references to the selected dicts. *)
Definition select_day (d : string) (events : loc) : M loc :=
  do refs <- read_list events;
  do items <- m_filter (λ r,
      do e <- read_dict r;
      do ds <- m_lift (getitem "days" (days e));
      m_ret (bool_decide (d ∈ ds))) refs;
  alloc (OList items).

(** Stable insertion of a keyed element: it goes behind every element
    whose key is not greater ([list.sort] compares keys with [<] only). *)
Fixpoint insert_keyed {A : Type} (k : string) (x : A) (l : list (string * A))
    : list (string * A) :=
  match l with
  | [] => [(k, x)]
  | (k', y) :: l' =>
      if String.ltb k' k then (k', y) :: insert_keyed k x l'
      else (k, x) :: (k', y) :: l'
  end.

Fixpoint sort_keyed {A : Type} (l : list (string * A)) : list (string * A) :=
  match l with
  | [] => []
  | (k, x) :: l' => insert_keyed k x (sort_keyed l')
  end.

(** [items.sort(key=lambda e: e["start"])]: the keys are computed first,
    then the list object is rewritten in place. *)
Definition sort_by_start (items : loc) : M unit :=
  do refs <- read_list items;
  do keys <- m_map (λ r, do e <- read_dict r; m_lift (getitem "start" (start e))) refs;
  write items (OList (snd <$> sort_keyed (zip keys refs))).

Definition view_line (e : event) : result string :=
  s ← getitem "start" (start e);
  en ← getitem "end" (end_ e);
  ti ← getitem "title" (title e);
  Ok ("  " +:+ s +:+ "–" +:+ en +:+ "  " +:+ ti).

Definition print_day (events : loc) (d : string) : M unit :=
  do items <- select_day d events;
  sort_by_start items ;;
  print (String LF (d +:+ ":")) ;;
  do refs <- read_list items;
  match refs with
  | [] => print "  (none)"
  | _ => m_for_each (λ r, do e <- read_dict r; do ln <- m_lift (view_line e); print ln) refs
  end.

Definition print_week_view (events : loc) : M unit :=
  print (String LF "WEEKLY VIEW") ;;
  print (repeat_char "-" 40) ;;
  m_for_each (print_day events) ORDER.

(** ** [main], from the loaded configuration on *)

Definition build_ics_at (h : py_hash) (term : string) (term_start term_end : date)
    (events : loc) : M string :=
  do evs <- load_events events;
  m_lift (build_ics h term term_start term_end evs).

Definition main (h : py_hash) (term : string) (term_start term_end : date)
    (events : loc) : M string :=
  do evs <- load_events events;
  m_lift (validate evs) ;;
  print_week_view events ;;
  build_ics_at h term term_start term_end events.

(** A store holding the events [evs] as dict objects at addresses
    [2, 3, ...] and their list at address [1]. *)
Definition store_of (evs : list event) : store :=
  let refs := Pos.of_nat <$> seq 2 (length evs) in
  mk_store (<[1%positive := OList refs]> (list_to_map (zip refs (ODict <$> evs)))) [].

(** ** The script from start to end: [load_courses] and the rest of [main]

    What the script does to its surroundings depends on library code and
    on the system, which stay arguments of the model:
    - [json_loads] stands for [read_text] and [json.loads]: the decoding
      of the file, the parsing of the text and the reading of the result
      as a configuration, an object with the keys the script looks up,
      each of which may be absent;
    - [fromisoformat] is [date.fromisoformat];
    - [write_file] tells how [Path.write_text] ends for a name and a text
      (see [write_outcome]);
    - [resolve] is [Path.resolve];
    - [put] tells whether standard output takes a string that [print]
      gives it: the encoding of the stream may lack a character (the
      lines of the weekly view hold an en dash and the titles, the last
      line a check mark and the resolved path), or the stream may be
      closed; the first string that is refused ends the run.
    The files of the working directory are a map from names to texts, and
    standard output is the list of the strings printed.  The texts are
    those UTF-8 can write: a [str] with a lone surrogate, which
    [json.loads] can produce and on which [write_text] raises, is not a
    [string]; that failure is one of those [write_file] stands for. *)

Record config : Type := mk_config {
  cfg_term : option string;
  cfg_term_start : option string;
  cfg_term_end : option string;
  cfg_events : option (list event)
}.

(** What the script can end with: [FileNotFoundError] from [load_courses],
    what the library functions raise, and the exceptions of [exn]. *)
Inductive script_exn : Type :=
| FileNotFoundError (msg : string)
| LibraryError (what : string)
| Raised (e : exn).

Inductive outcome (A : Type) : Type :=
| Done (a : A)
| Failed (e : script_exn).
Arguments Done {A} a.
Arguments Failed {A} e.

Global Instance outcome_ret : MRet outcome := @Done.
Global Instance outcome_bind : MBind outcome := λ A B f m,
  match m with
  | Done a => f a
  | Failed e => Failed e
  end.

Definition of_result {A : Type} (r : result A) : outcome A :=
  match r with
  | Ok a => Done a
  | Raise e => Failed (Raised e)
  end.

(** [Path(name)] for a bare file name: [path.parent] is [Path(".")]. *)
Record path : Type := mk_path { path_parent : string; path_name : string }.
Definition Path (name : string) : path := mk_path "." name.

Definition load_courses (json_loads : string → outcome config) (p : path)
    (fs : gmap string string) : outcome config :=
  match fs !! path_name p with
  | None =>
      Failed (FileNotFoundError ("Missing " +:+ path_name p +:+ " in " +:+ path_parent p))
  | Some text => json_loads text
  end.

(** The four look-ups at the head of [main], in the order of the source. *)
Definition read_config (fromisoformat : string → outcome date) (cfg : config)
    : outcome (string * date * date * list event) :=
  term ← of_result (getitem "term" (cfg_term cfg));
  s1 ← of_result (getitem "term_start" (cfg_term_start cfg));
  term_start ← fromisoformat s1;
  s2 ← of_result (getitem "term_end" (cfg_term_end cfg));
  term_end ← fromisoformat s2;
  events ← of_result (getitem "events" (cfg_events cfg));
  Done (term, term_start, term_end, events).

Record world : Type := mk_world {
  files : gmap string string;
  console : list string
}.

(** How [Path.write_text] ends.  It opens the file for writing, which
    empties it, encodes and writes the text, and closes the file:
    - [Written]: the file holds the text;
    - [NotOpened]: opening raised, and the file is as it was;
    - [Broken]: the file was opened, and so emptied, and then encoding or
      writing raised with [partial] written (nothing, when encoding raised). *)
Inductive write_outcome : Type :=
| Written
| NotOpened (e : script_exn)
| Broken (e : script_exn) (partial : string).

Definition write_text (write_file : string → string → write_outcome) (name text : string)
    (fs : gmap string string) : outcome unit * gmap string string :=
  match write_file name text with
  | Written => (Done tt, <[name := text]> fs)
  | NotOpened e => (Failed e, fs)
  | Broken e partial => (Failed e, <[name := partial]> fs)
  end.

Definition OUT_NAME : string := "school_calendar.ics".

Definition exported_line (resolved : string) : string :=
  String LF ("✅ Exported: " +:+ resolved).

(** The last three lines of [main]: the file is written, its path is
    resolved, and the line that names it is printed. *)
Definition export (write_file : string → string → write_outcome)
    (resolve : string → outcome string) (put : string → outcome unit)
    (ics_text : string) (fs : gmap string string) (printed : list string)
    : outcome unit * world :=
  match write_text write_file OUT_NAME ics_text fs with
  | (Failed e, fs') => (Failed e, mk_world fs' printed)
  | (Done _, fs') =>
      match resolve OUT_NAME with
      | Failed e => (Failed e, mk_world fs' printed)
      | Done resolved =>
          match put (exported_line resolved) with
          | Failed e => (Failed e, mk_world fs' printed)
          | Done _ => (Done tt, mk_world fs' (printed ++ [exported_line resolved]))
          end
      end
  end.

(** The strings that [print] is called with, offered to standard output
    one by one: those it took, and the exception of the first it refused. *)
Fixpoint put_all (put : string → outcome unit) (lines : list string)
    : outcome unit * list string :=
  match lines with
  | [] => (Done tt, [])
  | l :: rest =>
      match put l with
      | Failed e => (Failed e, [])
      | Done _ => let '(r, taken) := put_all put rest in (r, l :: taken)
      end
  end.

(** The whole of [main]: the files and the output it leaves behind, and
    whether it ended with an exception.  In [main] the weekly view is
    printed after the validation and before [build_ics] is called: a
    [print] that standard output refuses ends the run there, whatever
    [build_ics] would have done. *)
Definition script (h : py_hash) (json_loads : string → outcome config)
    (fromisoformat : string → outcome date)
    (write_file : string → string → write_outcome)
    (resolve : string → outcome string) (put : string → outcome unit)
    (fs : gmap string string) : outcome unit * world :=
  match load_courses json_loads (Path "courses.json") fs with
  | Failed e => (Failed e, mk_world fs [])
  | Done cfg =>
      match read_config fromisoformat cfg with
      | Failed e => (Failed e, mk_world fs [])
      | Done (term, term_start, term_end, events) =>
          let '(r, σ) := main h term term_start term_end 1%positive (store_of events) in
          match put_all put (stdout σ) with
          | (Failed e, taken) => (Failed e, mk_world fs taken)
          | (Done _, taken) =>
              match r with
              | Raise e => (Failed (Raised e), mk_world fs taken)
              | Ok ics_text => export write_file resolve put ics_text fs taken
              end
          end
      end
  end.

(** ** Vocabulary of the specification *)

(** Un-escaping, the inverse of the escaping rules: a backslash makes the
    next character literal, except that [\n] stands for a line feed. *)
Fixpoint unescape_go (pending : bool) (s : string) : string :=
  match s with
  | EmptyString => ""
  | String c r =>
      if pending then String (if Ascii.eqb c "n" then LF else c) (unescape_go false r)
      else if Ascii.eqb c BACKSLASH then unescape_go true r
      else String c (unescape_go false r)
  end.

Definition ics_unescape (s : string) : string := unescape_go false s.

(** CRLF and lone CR turned into LF. *)
Definition normalize_newlines (s : string) : string :=
  str_replace (str1 CR) (str1 LF) (str_replace CRLF (str1 LF) s).

(** What escaping writes for one character of normalized text. *)
Definition esc_char (c : ascii) : string :=
  if Ascii.eqb c BACKSLASH then "\\"
  else if Ascii.eqb c LF then "\n"
  else if Ascii.eqb c "," then "\,"
  else if Ascii.eqb c ";" then "\;"
  else str1 c.

Fixpoint has_char (c : ascii) (s : string) : bool :=
  match s with
  | EmptyString => false
  | String c' r => Ascii.eqb c' c || has_char c r
  end.

(** The grammar [H:M] or [HH:MM] of the specification: one or two decimal
    digits, a colon, one or two decimal digits, the hour at most 23 and the
    minute at most 59. *)
Definition digits12 (x : string) : option Z :=
  match x with
  | String a EmptyString => digit_val a
  | String a (String b EmptyString) =>
      va ← digit_val a; vb ← digit_val b; Some (10 * va + vb)
  | _ => None
  end.

Definition hhmm_fields (s : string) : option (Z * Z) :=
  match str_split ":" s with
  | [hh; mm] =>
      h ← digits12 hh; m ← digits12 mm;
      if (h <=? 23) && (m <=? 59) then Some (h, m) else None
  | _ => None
  end.

Definition hhmm_form (s : string) : bool := bool_decide (is_Some (hhmm_fields s)).

Fixpoint count_char (c : ascii) (s : string) : nat :=
  match s with
  | EmptyString => 0
  | String c' r => (if Ascii.eqb c' c then 1 else 0) + count_char c r
  end.

Definition DIGITS : list (ascii * Z) :=
  [("0", 0); ("1", 1); ("2", 2); ("3", 3); ("4", 4);
   ("5", 5); ("6", 6); ("7", 7); ("8", 8); ("9", 9)]%char.

(** [r] is a raised exception. *)
Definition raises {A : Type} (r : result A) : Prop := ∃ e, r = Raise e.

(** One of the seven recognized day codes. *)
Definition valid_code (c : string) : Prop := is_Some (DAY_MAP !! c).

(** The date [d] falls on one of the weekdays named in [ds]. *)
Definition day_matches (ds : list string) (d : date) : Prop :=
  ∃ c, c ∈ ds ∧ DAY_MAP !! c = Some (weekday d).

(** The last date the library represents, 9999-12-31. *)
Definition date_max : date := mk_date MAXORDINAL.

(** The first violation of the event at position [i], in the order the
    specification gives: missing fields, then day codes, then times. *)
Definition event_violation (i : nat) (e : event) : option exn :=
  match title e, days e, start e, end_ e with
  | Some _, Some ds, Some s, Some en =>
      match head (filter (λ d, DAY_MAP !! d = None) ds) with
      | Some d => Some (ValueError (invalid_day_message i d))
      | None =>
          match parse_hhmm s with
          | Raise x => Some x
          | Ok _ =>
              match parse_hhmm en with
              | Raise x => Some x
              | Ok _ => None
              end
          end
      end
  | _, _, _, _ => Some (ValueError (missing_keys_message i))
  end.

(** What validation establishes of an event. *)
Definition event_valid (e : event) : Prop :=
  ∃ ti ds s en st et,
    title e = Some ti ∧ days e = Some ds ∧ Forall valid_code ds ∧
    start e = Some s ∧ parse_hhmm s = Ok st ∧ end_ e = Some en ∧ parse_hhmm en = Ok et.

(** A text in which every line, the last one too, ends with CRLF. *)
Fixpoint crlf_lines (ls : list string) : string :=
  match ls with
  | [] => ""
  | l :: ls' => l +:+ CRLF +:+ crlf_lines ls'
  end.


(** Backslash doubling, the first pass of [ics_escape]. *)
Definition dbl (c : ascii) : string :=
  if Ascii.eqb c BACKSLASH then "\\" else str1 c.

(** Titles of every length, pairwise different. *)
Definition title_n (n : nat) : string := repeat_char "a" n.

(** What a computation on the store may do to it: nothing, nothing to the
    heap, or nothing to the objects that exist. *)
Definition readonly {A : Type} (m : M A) : Prop := ∀ σ, (m σ).2 = σ.
Definition heap_const {A : Type} (m : M A) : Prop := ∀ σ, heap (m σ).2 = heap σ.
Definition heap_grows {A : Type} (m : M A) : Prop := ∀ σ, heap σ ⊆ heap (m σ).2.

(** ** The weekly view, as a function of the events *)

(** The four required keys are present. *)
Definition has_keys (e : event) : Prop :=
  is_Some (title e) ∧ is_Some (days e) ∧ is_Some (start e) ∧ is_Some (end_ e).

(** [d in e["days"]]. *)
Definition on_day (d : string) (e : event) : bool :=
  match days e with
  | Some ds => bool_decide (d ∈ ds)
  | None => false
  end.

(** The sort key [e["start"]]. *)
Definition start_key (e : event) : string := default "" (start e).

(** Stable insertion sort of events by the start string. *)
Fixpoint insert_event (x : event) (l : list event) : list event :=
  match l with
  | [] => [x]
  | y :: l' =>
      if String.ltb (start_key y) (start_key x) then y :: insert_event x l'
      else x :: y :: l'
  end.

Fixpoint sort_events (l : list event) : list event :=
  match l with
  | [] => []
  | x :: l' => insert_event x (sort_events l')
  end.

(** The events shown under the day [d], in the order shown. *)
Definition day_items (d : string) (evs : list event) : list event :=
  sort_events (filter (λ e, on_day d e = true) evs).

(** The order of the start strings, character code by character code. *)
Definition start_le (a b : event) : Prop := String.le (start_key a) (start_key b).

(** The line printed for an event. *)
Definition line_of (e : event) : string :=
  "  " +:+ default "" (start e) +:+ "–" +:+ default "" (end_ e) +:+ "  " +:+ default "" (title e).

(** The lines printed for the day [d]. *)
Definition day_block (d : string) (evs : list event) : list string :=
  String LF (d +:+ ":") ::
  match day_items d evs with
  | [] => ["  (none)"]
  | items => line_of <$> items
  end.

(** Everything [print_week_view] prints. *)
Definition week_view (evs : list event) : list string :=
  [String LF "WEEKLY VIEW"; repeat_char "-" 40] ++ concat ((λ d, day_block d evs) <$> ORDER).

(** The addresses [refs] hold the dicts [evs], one by one. *)
Definition objs (σ : store) (refs : list loc) (evs : list event) : Prop :=
  Forall2 (λ r e, heap σ !! r = Some (ODict e)) refs evs.

(** ** Escaped text and the lines of a document *)

(** A text value as RFC 5545 writes it: a backslash is followed by one of
    backslash, [n], comma and semicolon, and outside of such a pair there
    is no CR, LF, comma or semicolon. *)
Fixpoint escaped_text_go (pending : bool) (s : string) : bool :=
  match s with
  | EmptyString => negb pending
  | String c r =>
      if pending then
        (Ascii.eqb c BACKSLASH || Ascii.eqb c "n" || Ascii.eqb c "," || Ascii.eqb c ";")
        && escaped_text_go false r
      else if Ascii.eqb c BACKSLASH then escaped_text_go true r
      else negb (Ascii.eqb c CR || Ascii.eqb c LF || Ascii.eqb c "," || Ascii.eqb c ";")
           && escaped_text_go false r
  end.

Definition escaped_text (s : string) : bool := escaped_text_go false s.

(** A string without a line break in it. *)
Definition one_line (s : string) : Prop := has_char CR s = false ∧ has_char LF s = false.

(** The pieces of a text between its CRLF pairs, found from left to right
    as [str.split] with the separator CRLF finds them. *)
Fixpoint split_crlf_go (skip : bool) (s : string) : list string :=
  match s with
  | EmptyString => [""]
  | String c r =>
      if skip then split_crlf_go false r
      else if String.prefix CRLF s then "" :: split_crlf_go true r
      else match split_crlf_go false r with
           | p :: ps => String c p :: ps
           | [] => [str1 c]
           end
  end.
Definition split_crlf (s : string) : list string := split_crlf_go false s.

(** ** Sample inputs *)

Definition sep_2 : date := mk_date (ymd2ord 2024 9 2).
Definition dec_13 : date := mk_date (ymd2ord 2024 12 13).

Definition algorithms : event :=
  mk_event (Some "Algorithms") (Some ["MO"; "WE"]) (Some "10:00") (Some "11:15") None None.

(** Two Monday events, the earlier one written without a leading zero. *)
Definition lab : event :=
  mk_event (Some "Lab") (Some ["MO"]) (Some "9:00") (Some "9:50") None None.
Definition lecture : event :=
  mk_event (Some "Lecture") (Some ["MO"]) (Some "10:00") (Some "10:50") None None.

(** An event whose start is not a time of day, and one without a title. *)
Definition late : event :=
  mk_event (Some "Late") (Some ["TU"]) (Some "25:00") (Some "26:00") None None.
Definition untitled : event :=
  mk_event None (Some ["TU"]) (Some "10:00") (Some "11:00") None None.

Definition seminar : event :=
  mk_event (Some "Seminar") (Some ["SU"]) (Some "10:00") (Some "11:00") None None.

(** Times spelled in ways [int] accepts beyond [H:M] and [HH:MM]. *)
Definition odd_times : event :=
  mk_event (Some "Lab") (Some ["MO"]) (Some "009:00") (Some "+10:0_0") None None.

Definition sample_text : string :=
  "Room 1, wing B; see C:\maps" +:+ str1 LF +:+ "2nd floor".

Definition const_hash : py_hash := λ _, -42.

(** The Algorithms event with a room and a note. *)
Definition algorithms_in_room : event :=
  mk_event (Some "Algorithms") (Some ["MO"; "WE"]) (Some "10:00") (Some "11:15")
    (Some "Hall 3, east wing") (Some "bring the book; chapter 2").

(** A configuration, and stand-ins for the library functions on it. *)
Definition sample_config : config :=
  mk_config (Some "Fall 2024") (Some "2024-09-02") (Some "2024-12-13")
    (Some [lecture; algorithms; lab]).
Definition sample_json_loads : string → outcome config := λ _, Done sample_config.
Definition sample_fromisoformat : string → outcome date := λ s,
  if String.eqb s "2024-09-02" then Done sep_2
  else if String.eqb s "2024-12-13" then Done dec_13
  else Failed (LibraryError "ValueError").
Definition sample_write_file : string → string → write_outcome := λ _ _, Written.
Definition sample_resolve : string → outcome string := λ p, Done ("/home/user/" +:+ p).
Definition sample_put : string → outcome unit := λ _, Done tt.
Definition sample_fs : gmap string string := {[ "courses.json" := "{}" ]}.

(* ===================================================================== *)
(** * Part II: what the functions do *)
(* ===================================================================== *)

Local Arguments String.append !_ _ / : simpl nomatch.
Local Arguments ascii_dec : simpl never.

(** ** Strings *)

Lemma append_assoc (a b c : string) : (a +:+ b) +:+ c = a +:+ (b +:+ c).
Proof. induction a as [|x a IH]; simpl; [done | by rewrite IH]. Qed.

Lemma smap_app f s t : smap f (s +:+ t) = smap f s +:+ smap f t.
Proof.
  induction s as [|c s IH]; simpl; [done |].
  by rewrite IH, append_assoc.
Qed.

Lemma smap_smap f g s : smap g (smap f s) = smap (λ c, smap g (f c)) s.
Proof.
  induction s as [|c s IH]; simpl; [done |].
  by rewrite smap_app, IH.
Qed.

Lemma smap_ext f g s : (∀ c, f c = g c) → smap f s = smap g s.
Proof. intros E. induction s as [|c s IH]; simpl; [done | by rewrite E, IH]. Qed.

Lemma prefix_empty s : String.prefix "" s = true.
Proof. by destruct s. Qed.

(** Replacing a one-character pattern is a character-wise map. *)
Lemma str_replace_char a new s :
  str_replace (str1 a) new s = smap (λ c, if Ascii.eqb c a then new else str1 c) s.
Proof.
  unfold str_replace, str1.
  induction s as [|c s IH]; simpl; [done |].
  destruct (ascii_dec a c) as [->|Hne].
  - rewrite Ascii.eqb_refl, prefix_empty. by rewrite IH.
  - assert (Ascii.eqb c a = false) as -> by (apply Ascii.eqb_neq; congruence).
    by rewrite IH.
Qed.

(** One step of the CRLF pass, by what the text starts with. *)
Lemma crlf_go_hit r :
  str_replace_go CRLF (str1 LF) 0 (String CR (String LF r))
  = String LF (str_replace_go CRLF (str1 LF) 0 r).
Proof.
  simpl. destruct (ascii_dec CR CR); [| done].
  destruct (ascii_dec LF LF); [| done]. by rewrite prefix_empty.
Qed.

Lemma crlf_go_other c r :
  c ≠ CR → str_replace_go CRLF (str1 LF) 0 (String c r)
           = String c (str_replace_go CRLF (str1 LF) 0 r).
Proof.
  intros Hc. simpl. destruct (ascii_dec CR c); [congruence | done].
Qed.

Lemma crlf_go_lone_cr r :
  (∀ r', r ≠ String LF r') →
  str_replace_go CRLF (str1 LF) 0 (String CR r)
  = String CR (str_replace_go CRLF (str1 LF) 0 r).
Proof.
  intros Hr. simpl. destruct (ascii_dec CR CR); [| done].
  destruct r as [|a r]; [done |]. simpl.
  destruct (ascii_dec LF a) as [<-|]; [by destruct (Hr r) | done].
Qed.

(** Induction on strings two characters at a time. *)
Lemma string_ind2 (P : string → Prop) :
  P "" → (∀ c, P (String c "")) →
  (∀ c a r, P r → P (String a r) → P (String c (String a r))) →
  ∀ s, P s.
Proof.
  intros H0 H1 H2 s.
  cut (P s ∧ ∀ c, P (String c s)); [by intros [? _] |].
  induction s as [|a s [IH1 IH2]]; split; auto.
Qed.

Lemma smap_dbl_bs x :
  smap dbl (String BACKSLASH x) = String BACKSLASH (String BACKSLASH (smap dbl x)).
Proof. done. Qed.

Lemma smap_dbl_other c x :
  c ≠ BACKSLASH → smap dbl (String c x) = String c (smap dbl x).
Proof. intros Hc. simpl. unfold dbl at 1. by destruct (Ascii.eqb_spec c BACKSLASH). Qed.

Lemma smap_dbl_head_not_lf a r r' : a ≠ LF → smap dbl (String a r) ≠ String LF r'.
Proof.
  intros Ha. destruct (decide (a = BACKSLASH)) as [->|Hb].
  - by rewrite smap_dbl_bs.
  - rewrite smap_dbl_other by done. congruence.
Qed.

(** Doubling the backslashes neither makes nor breaks a CRLF pair, so the
    first two passes of [ics_escape] can be taken in either order. *)
Lemma crlf_dbl_commute s :
  str_replace_go CRLF (str1 LF) 0 (smap dbl s)
  = smap dbl (str_replace_go CRLF (str1 LF) 0 s).
Proof.
  induction s as [| c | c a r IH1 IH2] using string_ind2; [done | |].
  - destruct (decide (c = BACKSLASH)) as [->|Hb]; [done |].
    destruct (decide (c = CR)) as [->|Hcr]; [done |].
    rewrite smap_dbl_other, !crlf_go_other by done.
    by rewrite smap_dbl_other.
  - destruct (decide (c = BACKSLASH)) as [->|Hb].
    { rewrite smap_dbl_bs, !(crlf_go_other BACKSLASH), IH2 by done.
      by rewrite smap_dbl_bs. }
    rewrite (smap_dbl_other c) by done.
    destruct (decide (c = CR)) as [->|Hcr].
    + destruct (decide (a = LF)) as [->|Hlf].
      * rewrite (smap_dbl_other LF) by done.
        rewrite !crlf_go_hit, IH1. by rewrite (smap_dbl_other LF).
      * rewrite !crlf_go_lone_cr, IH2; [by rewrite (smap_dbl_other CR) | congruence |].
        intros r'. by apply smap_dbl_head_not_lf.
    + rewrite !(crlf_go_other c), IH2 by done. by rewrite smap_dbl_other.
Qed.

Lemma or_empty_id s : or_empty s = s.
Proof. by destruct s. Qed.

(** The passes for CR, LF, comma and semicolon after backslash doubling,
    on one character. *)
Lemma esc_passes_char (c : ascii) :
  smap (λ c, if Ascii.eqb c ";" then "\;" else str1 c)
    (smap (λ c, if Ascii.eqb c "," then "\," else str1 c)
      (smap (λ c, if Ascii.eqb c LF then "\n" else str1 c)
        (smap (λ c, if Ascii.eqb c CR then str1 LF else str1 c) (dbl c))))
  = smap esc_char (if Ascii.eqb c CR then str1 LF else str1 c).
Proof. destruct c as [[] [] [] [] [] [] [] []]; reflexivity. Qed.

(** The six passes of [ics_escape] amount to one pass over the text with
    its newlines normalized: no later pass touches what an earlier one
    wrote. *)
Lemma ics_escape_one_pass s :
  ics_escape s = smap esc_char (normalize_newlines s).
Proof.
  unfold ics_escape, normalize_newlines. rewrite or_empty_id.
  change "\" with (str1 BACKSLASH). change ";" with (str1 ";"). change "," with (str1 ",").
  rewrite !str_replace_char.
  change (str_replace CRLF (str1 LF) ?x) with (str_replace_go CRLF (str1 LF) 0 x).
  change (smap _ s) with (smap dbl s).
  rewrite crlf_dbl_commute.
  rewrite !smap_smap.
  apply smap_ext. intros c. rewrite <- esc_passes_char.
  by rewrite !smap_smap.
Qed.

Lemma unescape_esc_char c r :
  unescape_go false (esc_char c +:+ r) = String c (unescape_go false r).
Proof. destruct c as [[] [] [] [] [] [] [] []]; reflexivity. Qed.

Lemma unescape_smap_esc t : ics_unescape (smap esc_char t) = t.
Proof.
  unfold ics_unescape. induction t as [|c t IH]; [done |].
  simpl smap. by rewrite unescape_esc_char, IH.
Qed.

Lemma crlf_go_no_cr s :
  has_char CR s = false → str_replace_go CRLF (str1 LF) 0 s = s.
Proof.
  induction s as [|c s IH]; [done |]. simpl has_char.
  intros [Hc Hs]%orb_false_elim.
  rewrite crlf_go_other by (by apply Ascii.eqb_neq). by rewrite IH.
Qed.

Lemma cr_pass_no_cr s :
  has_char CR s = false → smap (λ c, if Ascii.eqb c CR then str1 LF else str1 c) s = s.
Proof.
  induction s as [|c s IH]; [done |]. simpl has_char.
  intros [Hc Hs]%orb_false_elim. simpl. rewrite Hc. simpl. by rewrite IH.
Qed.

Lemma normalize_no_cr s : has_char CR s = false → normalize_newlines s = s.
Proof.
  intros H. unfold normalize_newlines. rewrite str_replace_char.
  change (str_replace CRLF (str1 LF) s) with (str_replace_go CRLF (str1 LF) 0 s).
  by rewrite crlf_go_no_cr, cr_pass_no_cr.
Qed.

(** A text written with CRLF for its newlines normalizes to the text. *)
Lemma normalize_crlf_form s :
  has_char CR s = false → normalize_newlines (str_replace (str1 LF) CRLF s) = s.
Proof.
  intros H. unfold normalize_newlines. rewrite !str_replace_char.
  change (str_replace CRLF (str1 LF) ?x) with (str_replace_go CRLF (str1 LF) 0 x).
  induction s as [|c s IH]; [done |]. simpl in H.
  apply orb_false_elim in H as [Hc Hs]. simpl smap at 2.
  destruct (Ascii.eqb_spec c LF) as [->|Hlf].
  - unfold CRLF at 2. simpl String.append. rewrite crlf_go_hit. simpl. by rewrite IH.
  - simpl String.append. rewrite crlf_go_other by (by apply Ascii.eqb_neq).
    simpl. rewrite Hc. simpl. by rewrite IH.
Qed.

(** And so does the text written with lone CR. *)
Lemma normalize_cr_form s :
  has_char CR s = false → normalize_newlines (str_replace (str1 LF) (str1 CR) s) = s.
Proof.
  intros H. unfold normalize_newlines. rewrite !str_replace_char.
  change (str_replace CRLF (str1 LF) ?x) with (str_replace_go CRLF (str1 LF) 0 x).
  set (f := λ c : ascii, if Ascii.eqb c LF then str1 CR else str1 c).
  assert (∀ t r', smap f t ≠ String LF r') as Hhead.
  { intros [|a t] r'; [done |]. simpl. unfold f at 1.
    destruct (Ascii.eqb_spec a LF) as [->|]; simpl; intros E; [discriminate E | congruence]. }
  induction s as [|c s IH]; [done |]. simpl in H.
  apply orb_false_elim in H as [Hc Hs]. simpl smap at 2. unfold f at 1.
  destruct (Ascii.eqb_spec c LF) as [->|Hlf].
  - simpl String.append. rewrite crlf_go_lone_cr by apply Hhead. simpl. by rewrite IH.
  - simpl String.append. rewrite crlf_go_other by (by apply Ascii.eqb_neq).
    simpl. rewrite Hc. simpl. by rewrite IH.
Qed.

(** C3, as amended.  [ics_escape] doubles backslashes, turns CRLF and lone
    CR into LF and writes LF, comma and semicolon as backslash-n,
    backslash-comma and backslash-semicolon: it is one character-wise pass
    over the text with its newlines normalized.  Un-escaping the result
    gives the text with its newlines normalized; for a text without CR that
    is the text itself, and its CRLF and CR spellings escape to the same
    output as the text. *)
Theorem ics_escape_roundtrip (s : string) :
  ics_escape s = smap esc_char (normalize_newlines s) ∧
  ics_unescape (ics_escape s) = normalize_newlines s ∧
  (has_char CR s = false →
     ics_unescape (ics_escape s) = s ∧
     ics_escape (str_replace (str1 LF) CRLF s) = ics_escape s ∧
     ics_escape (str_replace (str1 LF) (str1 CR) s) = ics_escape s).
Proof.
  split; [apply ics_escape_one_pass |].
  split; [by rewrite ics_escape_one_pass, unescape_smap_esc |].
  intros H. rewrite !ics_escape_one_pass, unescape_smap_esc.
  by rewrite normalize_crlf_form, normalize_cr_form, normalize_no_cr.
Qed.

Lemma ics_escape_roundtrip_witness :
  ics_unescape (ics_escape sample_text) = sample_text ∧
  ics_escape (str_replace (str1 LF) CRLF sample_text) = ics_escape sample_text ∧
  ics_escape (str_replace (str1 LF) (str1 CR) sample_text) = ics_escape sample_text.
Proof. apply (ics_escape_roundtrip sample_text). reflexivity. Defined.

(** C3 as stated fails: a lone CR and a LF escape to the same output, so
    un-escaping cannot give back the CR. *)
Lemma ics_escape_loses_cr :
  ics_escape (str1 CR) = ics_escape (str1 LF) ∧
  ics_unescape (ics_escape (str1 CR)) = str1 LF ∧
  str1 LF ≠ str1 CR.
Proof. split; [reflexivity |]. split; [reflexivity | discriminate]. Qed.

(** ** Times of day *)

Lemma length_str_split sep s : length (str_split sep s) = S (count_char sep s).
Proof.
  induction s as [|c s IH]; [done |]. simpl.
  destruct (Ascii.eqb c sep); simpl; [by rewrite IH |].
  destruct (str_split sep s); simpl in *; lia.
Qed.

Lemma digit_val_cases c v : digit_val c = Some v → In (c, v) DIGITS.
Proof.
  destruct c as [[] [] [] [] [] [] [] []]; vm_compute; intros [=]; subst;
    repeat (first [left; reflexivity | right]).
Qed.

(** [int] reads one or two decimal digits as their value. *)
Lemma digits12_int x v : digits12 x = Some v → int x = Ok v ∧ 0 <= v <= 99.
Proof.
  destruct x as [|a [|b [|? ?]]]; simpl; try discriminate.
  - intros Ha%digit_val_cases. simpl in Ha.
    repeat (destruct Ha as [[= <- <-]|Ha]; [by vm_compute |]). done.
  - destruct (digit_val a) as [va|] eqn:Ha; [|discriminate].
    destruct (digit_val b) as [vb|] eqn:Hb; [|discriminate].
    simpl. intros [= <-].
    apply digit_val_cases in Ha, Hb. simpl in Ha, Hb.
    repeat (destruct Ha as [[= <- <-]|Ha];
            [repeat (destruct Hb as [[= <- <-]|Hb]; [by vm_compute |]); done |]).
    done.
Qed.

(** A number converts to a C [int] exactly when it has 32 bits, and the
    conversion raises nothing but [OverflowError]. *)
Lemma as_c_int_cases n :
  (- 2 ^ 31 <= n < 2 ^ 31 ∧ as_c_int n = Ok n) ∨
  (¬ (- 2 ^ 31 <= n < 2 ^ 31) ∧ ∃ msg, as_c_int n = Raise (OverflowError msg)).
Proof.
  unfold as_c_int.
  destruct ((n <? - 2 ^ 63) || (2 ^ 63 <=? n)) eqn:H1; [right; split; [lia | by eexists] |].
  destruct (2 ^ 31 <=? n) eqn:H2; [right; split; [lia | by eexists] |].
  destruct (n <? - 2 ^ 31) eqn:H3; [right; split; [lia | by eexists] |].
  left. split; [lia | done].
Qed.

Lemma time_of_ok h m :
  0 <= h <= 23 → 0 <= m <= 59 → time_of h m = Ok (mk_time h m 0).
Proof.
  intros Hh Hm. unfold time_of.
  destruct (as_c_int_cases h) as [[_ ->]|[? _]]; [|lia].
  destruct (as_c_int_cases m) as [[_ ->]|[? _]]; [|lia].
  cbn [mbind result_bind].
  assert ((0 <=? h) && (h <=? 23) = true) as -> by lia.
  assert ((0 <=? m) && (m <=? 59) = true) as -> by lia.
  done.
Qed.

Lemma time_of_inv h m t :
  time_of h m = Ok t → t = mk_time h m 0 ∧ 0 <= h <= 23 ∧ 0 <= m <= 59.
Proof.
  unfold time_of.
  destruct (as_c_int_cases h) as [[_ ->]|[_ [? ->]]]; [|discriminate].
  destruct (as_c_int_cases m) as [[_ ->]|[_ [? ->]]]; [|discriminate].
  cbn [mbind result_bind].
  destruct ((0 <=? h) && (h <=? 23)) eqn:Hh; simpl; [|discriminate].
  destruct ((0 <=? m) && (m <=? 59)) eqn:Hm; simpl; [|discriminate].
  intros [= <-]. split; [done | lia].
Qed.

Lemma hhmm_fields_parse s h m :
  hhmm_fields s = Some (h, m) → parse_hhmm s = Ok (mk_time h m 0).
Proof.
  unfold hhmm_fields, parse_hhmm.
  destruct (str_split ":" s) as [|hh [|mm [|? ?]]]; try discriminate.
  destruct (digits12 hh) as [vh|] eqn:Hh; [|discriminate].
  destruct (digits12 mm) as [vm|] eqn:Hm; [|discriminate].
  simpl. destruct ((vh <=? 23) && (vm <=? 59)) eqn:Hr; [|discriminate].
  intros [= <- <-].
  apply digits12_int in Hh as [-> ?], Hm as [-> ?]. simpl.
  apply time_of_ok; lia.
Qed.

Lemma parse_hhmm_inv s t :
  parse_hhmm s = Ok t →
  count_char ":" s = 1%nat ∧ 0 <= hour t <= 23 ∧ 0 <= minute t <= 59 ∧ second t = 0.
Proof.
  unfold parse_hhmm. pose proof (length_str_split ":" s) as Hlen.
  destruct (str_split ":" s) as [|hh [|mm [|? ?]]]; try discriminate.
  destruct (int hh) as [h|]; [|discriminate].
  destruct (int mm) as [m|]; [|discriminate].
  simpl. intros (-> & ? & ?)%time_of_inv. simpl in *. split; [lia | done].
Qed.

(** An event whose start or end does not parse is refused, whatever else
    is wrong with it. *)
Lemma validate_event_time i e s en :
  start e = Some s → end_ e = Some en →
  raises (parse_hhmm s) ∨ raises (parse_hhmm en) → raises (validate_event i e).
Proof.
  intros Hs He Hbad. unfold validate_event. rewrite Hs, He.
  destruct (title e); [|by eexists].
  destruct (days e) as [ds|]; [|by eexists].
  destruct (for_each (check_day i) ds) as [[]|x]; [|by eexists].
  simpl. destruct (parse_hhmm s) as [t1|x].
  - destruct Hbad as [[? [=]]|[x ->]]. by eexists.
  - by eexists.
Qed.

(** [parse_hhmm] succeeds exactly for one colon between two literals that
    [int] reads, with the values in range. *)
Lemma parse_hhmm_ok_iff s t :
  parse_hhmm s = Ok t ↔
  ∃ hh mm, str_split ":" s = [hh; mm] ∧ int hh = Ok (hour t) ∧ int mm = Ok (minute t) ∧
           0 <= hour t <= 23 ∧ 0 <= minute t <= 59 ∧ second t = 0.
Proof.
  unfold parse_hhmm. split.
  - destruct (str_split ":" s) as [|hh [|mm [|? ?]]]; try discriminate.
    destruct (int hh) as [h|] eqn:Hh; [|discriminate].
    destruct (int mm) as [m|] eqn:Hm; [|discriminate].
    simpl. intros (-> & ? & ?)%time_of_inv. exists hh, mm. simpl.
    rewrite Hh, Hm. repeat split; (done || lia).
  - intros (hh & mm & -> & -> & -> & Hh & Hm & Hs). simpl.
    rewrite time_of_ok by done. destruct t as [h m sec]. simpl in *. by subst.
Qed.

(** What [parse_hhmm] raises is a [ValueError], except for two integer
    literals of which one does not fit a C [int]. *)
Lemma parse_hhmm_raise s e :
  parse_hhmm s = Raise e →
  is_ValueError e = true ∨
  ∃ msg hh mm h m,
    e = OverflowError msg ∧ str_split ":" s = [hh; mm] ∧ int hh = Ok h ∧ int mm = Ok m ∧
    ¬ (- 2 ^ 31 <= h < 2 ^ 31 ∧ - 2 ^ 31 <= m < 2 ^ 31).
Proof.
  unfold parse_hhmm.
  destruct (str_split ":" s) as [|hh [|mm [|? ?]]] eqn:Hsplit;
    try (intros [= <-]; by left).
  destruct (int hh) as [h|y] eqn:Hh.
  2:{ intros [= <-]. left. unfold int in Hh. case_match; [discriminate |]. by injection Hh as <-. }
  destruct (int mm) as [m|y] eqn:Hm.
  2:{ intros [= <-]. left. unfold int in Hm. case_match; [discriminate |]. by injection Hm as <-. }
  cbn [mbind result_bind]. unfold time_of.
  destruct (as_c_int_cases h) as [[Hfh ->]|[Hfh [msg ->]]]; cbn [mbind result_bind].
  - destruct (as_c_int_cases m) as [[Hfm ->]|[Hfm [msg ->]]]; cbn [mbind result_bind].
    + repeat case_match; intros [= <-]; by left.
    + intros [= <-]. right. exists msg, hh, mm, h, m.
      split; [done |]. split; [done |]. split; [done |]. split; [done |]. tauto.
  - intros [= <-]. right. exists msg, hh, mm, h, m.
    split; [done |]. split; [done |]. split; [done |]. split; [done |]. tauto.
Qed.

(** An event with its four keys and recognized day codes whose start or
    end does not parse is refused with the exception of [parse_hhmm],
    unchanged. *)
Lemma validate_event_time_error i e ti ds s en x :
  title e = Some ti → days e = Some ds → Forall valid_code ds →
  start e = Some s → end_ e = Some en →
  parse_hhmm s = Raise x ∨ (¬ raises (parse_hhmm s) ∧ parse_hhmm en = Raise x) →
  validate_event i e = Raise x.
Proof.
  intros Ht Hd Hv Hs He Hx. unfold validate_event. rewrite Ht, Hd, Hs, He.
  assert (for_each (check_day i) ds = Ok tt) as ->.
  { clear -Hv. induction Hv as [|d ds [w Hd] _ IH]; [done |].
    cbn [for_each].
    assert (check_day i d = Ok tt) as -> by (unfold check_day; by rewrite Hd).
    exact IH. }
  cbn [mbind result_bind]. destruct Hx as [->|[Hok ->]]; [done |].
  destruct (parse_hhmm s) as [t|y]; [done |]. destruct Hok. by eexists.
Qed.

(** Whatever the validation of an event raises is a [ValueError] or an
    [OverflowError]. *)
Lemma validate_event_raise i e x :
  validate_event i e = Raise x → is_ValueError x = true ∨ ∃ msg, x = OverflowError msg.
Proof.
  unfold validate_event.
  destruct (title e) as [ti|]; [|intros [= <-]; by left].
  destruct (days e) as [ds|]; [|intros [= <-]; by left].
  destruct (start e) as [s|]; [|intros [= <-]; by left].
  destruct (end_ e) as [en|]; [|intros [= <-]; by left].
  destruct (for_each (check_day i) ds) as [[]|y] eqn:Hdays.
  - cbn [mbind result_bind].
    destruct (parse_hhmm s) as [t1|y] eqn:H1; cbn [mbind result_bind].
    + destruct (parse_hhmm en) as [t2|y] eqn:H2; cbn [mbind result_bind]; [discriminate |].
      intros [= <-]. destruct (parse_hhmm_raise en y H2) as [?|(msg & _ & _ & _ & _ & -> & _)];
        [by left | right; by eexists].
    + intros [= <-]. destruct (parse_hhmm_raise s y H1) as [?|(msg & _ & _ & _ & _ & -> & _)];
        [by left | right; by eexists].
  - cbn [mbind result_bind]. intros [= <-]. left.
    clear -Hdays. induction ds as [|d ds IH]; [discriminate |].
    cbn [for_each] in Hdays.
    destruct (check_day i d) as [[]|z] eqn:Hd; cbn [mbind result_bind] in Hdays;
      [by apply IH |].
    injection Hdays as <-. unfold check_day in Hd.
    destruct (DAY_MAP !! d); [discriminate |]. by injection Hd as <-.
Qed.

(** C6, as amended.  [parse_hhmm] accepts every string of the form [H:M]
    or [HH:MM] with the hour at most 23 and the minute at most 59, and
    gives that time.  It succeeds exactly for the strings with one colon
    between two literals that [int] reads, with the hour from 0 to 23 and
    the minute from 0 to 59: these include other spellings (more leading
    zeros, white space, a sign, underscores between digits, decimal digits
    of other scripts).  Hour 24, minute 60, a missing colon and a trailing
    seconds field are refused.  What [parse_hhmm] raises is a [ValueError],
    or an [OverflowError] when both parts are integers and one does not fit
    a C [int]; the validator refuses an event whose start or end
    [parse_hhmm] refuses, with that exception unchanged when the event has
    its keys and recognized day codes, and raises nothing but [ValueError]
    and [OverflowError]. *)
Theorem parse_hhmm_grammar :
  (∀ s h m, hhmm_fields s = Some (h, m) → parse_hhmm s = Ok (mk_time h m 0)) ∧
  (∀ s t, parse_hhmm s = Ok t →
     count_char ":" s = 1%nat ∧ 0 <= hour t <= 23 ∧ 0 <= minute t <= 59 ∧ second t = 0) ∧
  (parse_hhmm "24:00" = Raise (TimeFieldError "hour") ∧
   parse_hhmm "10:60" = Raise (TimeFieldError "minute") ∧
   parse_hhmm "1000" = Raise (UnpackError 1) ∧
   parse_hhmm "10:00:00" = Raise (UnpackError 3)) ∧
  (parse_hhmm "009:00" = Ok (mk_time 9 0 0) ∧
   parse_hhmm " 9 : 05 " = Ok (mk_time 9 5 0) ∧
   parse_hhmm "+9:05" = Ok (mk_time 9 5 0) ∧
   parse_hhmm "1_0:00" = Ok (mk_time 10 0 0)) ∧
  (∀ i e s en, start e = Some s → end_ e = Some en →
     raises (parse_hhmm s) ∨ raises (parse_hhmm en) → raises (validate_event i e)) ∧
  (∀ s t, parse_hhmm s = Ok t ↔
     ∃ hh mm, str_split ":" s = [hh; mm] ∧ int hh = Ok (hour t) ∧ int mm = Ok (minute t) ∧
              0 <= hour t <= 23 ∧ 0 <= minute t <= 59 ∧ second t = 0) ∧
  (parse_hhmm "٩:٠٥" = Ok (mk_time 9 5 0) ∧
   parse_hhmm (str1 "028" +:+ "9:00") = Raise (IntLiteralError (str1 "028" +:+ "9")) ∧
   parse_hhmm "99999999999999999999:00"
   = Raise (OverflowError "Python int too large to convert to C long") ∧
   parse_hhmm "25:4294967296"
   = Raise (OverflowError "signed integer is greater than maximum")) ∧
  (∀ s e, parse_hhmm s = Raise e →
     is_ValueError e = true ∨
     ∃ msg hh mm h m,
       e = OverflowError msg ∧ str_split ":" s = [hh; mm] ∧ int hh = Ok h ∧ int mm = Ok m ∧
       ¬ (- 2 ^ 31 <= h < 2 ^ 31 ∧ - 2 ^ 31 <= m < 2 ^ 31)) ∧
  (∀ i e ti ds s en x,
     title e = Some ti → days e = Some ds → Forall valid_code ds →
     start e = Some s → end_ e = Some en →
     parse_hhmm s = Raise x ∨ (¬ raises (parse_hhmm s) ∧ parse_hhmm en = Raise x) →
     validate_event i e = Raise x) ∧
  (∀ i e x, validate_event i e = Raise x →
     is_ValueError x = true ∨ ∃ msg, x = OverflowError msg).
Proof.
  split; [apply hhmm_fields_parse |].
  split; [apply parse_hhmm_inv |].
  split; [by vm_compute |].
  split; [by vm_compute |].
  split; [apply validate_event_time |].
  split; [apply parse_hhmm_ok_iff |].
  split; [by vm_compute |].
  split; [apply parse_hhmm_raise |].
  split; [apply validate_event_time_error | apply validate_event_raise].
Qed.

Lemma parse_hhmm_grammar_witness :
  parse_hhmm "9:05" = Ok (mk_time 9 5 0) ∧
  raises (validate_event 1 late) ∧
  validate_event 3 late = Raise (TimeFieldError "hour") ∧
  (is_ValueError (TimeFieldError "hour") = true ∨ ∃ msg, TimeFieldError "hour" = OverflowError msg).
Proof.
  destruct parse_hhmm_grammar as (Hform & _ & _ & _ & Hval & _ & _ & _ & Hsame & Hclass).
  split; [apply Hform; reflexivity |].
  split.
  { apply (Hval 1%nat late "25:00" "26:00"); [reflexivity | reflexivity |].
    left. by eexists. }
  assert (validate_event 3 late = Raise (TimeFieldError "hour")) as Hlate.
  { apply (Hsame 3%nat late "Late" ["TU"] "25:00" "26:00");
      [reflexivity | reflexivity | repeat constructor; by eexists | reflexivity | reflexivity |].
    left. reflexivity. }
  split; [exact Hlate | exact (Hclass 3%nat late _ Hlate)].
Defined.

(** C6 as stated fails: a start of three digits, an end with a sign and
    an underscore, and a time in Arabic-Indic digits are outside the
    grammar, yet they parse and the events pass validation. *)
Lemma parse_hhmm_accepts_other_spellings :
  hhmm_form "009:00" = false ∧ parse_hhmm "009:00" = Ok (mk_time 9 0 0) ∧
  hhmm_form "+10:0_0" = false ∧ parse_hhmm "+10:0_0" = Ok (mk_time 10 0 0) ∧
  validate [odd_times] = Ok tt ∧
  hhmm_form "٩:٠٥" = false ∧ parse_hhmm "٩:٠٥" = Ok (mk_time 9 5 0).
Proof. by vm_compute. Qed.

(** ** The first occurrence *)

(** The codes of [DAY_MAP] are those of [ORDER], numbered from 0. *)
Lemma DAY_MAP_order c w :
  DAY_MAP !! c = Some w ↔ 0 <= w ∧ ORDER !! Z.to_nat w = Some c.
Proof.
  unfold DAY_MAP. rewrite <- elem_of_list_to_map by (by apply (bool_decide_unpack _)).
  split.
  - intros H. repeat (apply elem_of_cons in H as [E|H]; [by inversion E |]).
    by apply elem_of_nil in H.
  - intros [Hw H].
    assert (w = 0 ∨ w = 1 ∨ w = 2 ∨ w = 3 ∨ w = 4 ∨ w = 5 ∨ w = 6 ∨ 7 <= w) as Hc by lia.
    destruct Hc as [->|[->|[->|[->|[->|[->|[->|Hc]]]]]]]; simpl in H; simplify_eq; try set_solver.
    apply lookup_lt_Some in H. simpl in H. lia.
Qed.

Lemma day_index_ok c : valid_code c → ∃ w, day_index c = Ok w ∧ DAY_MAP !! c = Some w.
Proof. intros [w Hw]. exists w. unfold day_index. by rewrite Hw. Qed.

(** The set comprehension over recognized codes raises nothing and holds
    the numbers of the codes. *)
Lemma map_day_index days :
  Forall valid_code days →
  ∃ idx, map_result day_index days = Ok idx ∧
         ∀ w, w ∈ idx ↔ ∃ c, c ∈ days ∧ DAY_MAP !! c = Some w.
Proof.
  induction 1 as [|c days Hc _ (idx & Hidx & Hin)]; simpl.
  - exists []. split; [done |]. intros w. split; [by intros ?%elem_of_nil |].
    by intros (c & ?%elem_of_nil & _).
  - destruct (day_index_ok c Hc) as (w0 & -> & Hw0). simpl. rewrite Hidx. simpl.
    exists (w0 :: idx). split; [done |]. intros w. rewrite elem_of_cons, Hin. split.
    + intros [->|(c' & ? & ?)]; [exists c | exists c']; rewrite elem_of_cons; auto.
    + intros (c' & [->|?]%elem_of_cons & Hw); [left; congruence | right; eauto].
Qed.

(** [scan_days] obeys the equation of the [while] loop: with the count of
    days left in the window, the test [n = 0] is the failed guard
    [d <= term_end]. *)
Lemma scan_days_loop wanted (term_end d : date) :
  scan_days (Z.to_nat (toordinal term_end - toordinal d + 1)) wanted d =
  if toordinal d <=? toordinal term_end then
    if bool_decide (weekday d ∈ wanted) then Ok (Some d)
    else d' ← fromordinal (toordinal d + 1);
         scan_days (Z.to_nat (toordinal term_end - toordinal d' + 1)) wanted d'
  else Ok None.
Proof.
  destruct (Z.leb_spec (toordinal d) (toordinal term_end)) as [Hle|Hgt].
  - replace (Z.to_nat (toordinal term_end - toordinal d + 1))
      with (S (Z.to_nat (toordinal term_end - (toordinal d + 1) + 1))) by lia.
    cbn [scan_days]. case_bool_decide; [done |].
    unfold fromordinal. by case_match.
  - by replace (Z.to_nat (toordinal term_end - toordinal d + 1)) with 0%nat by lia.
Qed.

(** The scan, for a window that ends no later than the last date. *)
Lemma scan_days_spec wanted n : ∀ d,
  1 <= toordinal d → toordinal d + Z.of_nat n <= MAXORDINAL + 1 →
  match scan_days n wanted d with
  | Ok (Some r) =>
      toordinal d <= toordinal r < toordinal d + Z.of_nat n ∧ weekday r ∈ wanted ∧
      ∀ x, toordinal d <= x < toordinal r → weekday (mk_date x) ∉ wanted
  | Ok None =>
      (∀ x, toordinal d <= x < toordinal d + Z.of_nat n → weekday (mk_date x) ∉ wanted) ∧
      (n = 0%nat ∨ toordinal d + Z.of_nat n <= MAXORDINAL)
  | Raise e =>
      e = DateRangeError (MAXORDINAL + 1) ∧
      (∀ x, toordinal d <= x < toordinal d + Z.of_nat n → weekday (mk_date x) ∉ wanted) ∧
      toordinal d + Z.of_nat n = MAXORDINAL + 1 ∧ n ≠ 0%nat
  end.
Proof.
  induction n as [|n IH]; intros [o] Hlo Hhi; cbn [scan_days toordinal] in *.
  - split; [intros x Hx; lia | by left].
  - case_bool_decide as Hw.
    { cbn [toordinal]. split; [lia |]. split; [done | intros x Hx; lia]. }
    assert (∀ x, o <= x < o + 1 → weekday (mk_date x) ∉ wanted) as Hfirst.
    { intros x Hx. by replace x with o by lia. }
    unfold fromordinal.
    destruct ((1 <=? o + 1) && (o + 1 <=? MAXORDINAL)) eqn:Hnext; cbn [mbind result_bind].
    + specialize (IH (mk_date (o + 1))). cbn [toordinal] in IH.
      destruct (scan_days n wanted (mk_date (o + 1))) as [[r|]|e].
      * destruct IH as (? & ? & Hbefore); [lia.. |]. split; [lia |]. split; [done |].
        intros x Hx. destruct (decide (x = o)) as [->|]; [done | apply Hbefore; lia].
      * destruct IH as (Hnone & Hn); [lia.. |]. split.
        { intros x Hx. destruct (decide (x = o)) as [->|]; [done | apply Hnone; lia]. }
        right. lia.
      * destruct IH as (-> & Hnone & ? & ?); [lia.. |]. split; [done |]. split.
        { intros x Hx. destruct (decide (x = o)) as [->|]; [done | apply Hnone; lia]. }
        lia.
    + assert (o = MAXORDINAL) as -> by lia. split; [done |].
      split; [intros x Hx; apply Hfirst; lia | lia].
Qed.

(** The three outcomes of [first_matching_date] on valid dates and
    recognized codes. *)
Lemma first_matching_date_cases term_start term_end days :
  valid_date term_start → valid_date term_end → Forall valid_code days →
  match first_matching_date term_start term_end days with
  | Ok (Some r) =>
      toordinal term_start <= toordinal r <= toordinal term_end ∧ day_matches days r ∧
      ∀ x, toordinal term_start <= x < toordinal r → ¬ day_matches days (mk_date x)
  | Ok None =>
      (∀ x, toordinal term_start <= x <= toordinal term_end → ¬ day_matches days (mk_date x)) ∧
      (toordinal term_end < toordinal term_start ∨ toordinal term_end < MAXORDINAL)
  | Raise e =>
      e = DateRangeError (MAXORDINAL + 1) ∧
      (∀ x, toordinal term_start <= x <= toordinal term_end → ¬ day_matches days (mk_date x)) ∧
      toordinal term_start <= toordinal term_end ∧ term_end = date_max
  end.
Proof.
  intros [Hs1 Hs2] [He1 He2] Hdays. unfold first_matching_date.
  destruct (map_day_index days Hdays) as (idx & -> & Hidx). simpl.
  assert (∀ d, weekday d ∈ (list_to_set idx : gset Z) ↔ day_matches days d) as Hm.
  { intros d. rewrite elem_of_list_to_set, Hidx. done. }
  set (n := Z.to_nat (toordinal term_end - toordinal term_start + 1)).
  pose proof (scan_days_spec (list_to_set idx) n term_start Hs1) as Hscan.
  destruct (scan_days n (list_to_set idx) term_start) as [[r|]|e].
  - destruct Hscan as (? & ? & Hbefore); [lia |]. split; [lia |]. split; [by apply Hm |].
    intros x Hx. rewrite <- Hm. by apply Hbefore.
  - destruct Hscan as (Hnone & Hn); [lia |]. split.
    + intros x Hx. rewrite <- Hm. apply Hnone. lia.
    + lia.
  - destruct Hscan as (-> & Hnone & ? & ?); [lia |]. split; [done |]. split.
    + intros x Hx. rewrite <- Hm. apply Hnone. lia.
    + split; [lia |]. destruct term_end as [o]. unfold date_max. f_equal. simpl in *. lia.
Qed.

(** For valid dates and recognized day codes, [first_matching_date]
    returns the earliest date of the window that falls on one of the days;
    it returns [None] when no date of the window does and the window is
    empty or ends before 9999-12-31; it raises in the one case left, a
    window without a match that ends on 9999-12-31. *)
Theorem first_matching_date_spec term_start term_end days :
  valid_date term_start → valid_date term_end → Forall valid_code days →
  match first_matching_date term_start term_end days with
  | Ok (Some r) =>
      toordinal term_start <= toordinal r <= toordinal term_end ∧ day_matches days r ∧
      ∀ x, toordinal term_start <= x < toordinal r → ¬ day_matches days (mk_date x)
  | Ok None =>
      (∀ x, toordinal term_start <= x <= toordinal term_end → ¬ day_matches days (mk_date x)) ∧
      (toordinal term_end < toordinal term_start ∨ toordinal term_end < MAXORDINAL)
  | Raise e =>
      e = DateRangeError (MAXORDINAL + 1) ∧
      (∀ x, toordinal term_start <= x <= toordinal term_end → ¬ day_matches days (mk_date x)) ∧
      toordinal term_start <= toordinal term_end ∧ term_end = date_max
  end.
Proof. apply first_matching_date_cases. Qed.

Lemma valid_code_MO_WE : Forall valid_code ["MO"; "WE"].
Proof. repeat constructor; by eexists. Qed.

Lemma first_matching_date_spec_witness :
  match first_matching_date sep_2 dec_13 ["MO"; "WE"] with
  | Ok (Some r) =>
      toordinal sep_2 <= toordinal r <= toordinal dec_13 ∧ day_matches ["MO"; "WE"] r ∧
      ∀ x, toordinal sep_2 <= x < toordinal r → ¬ day_matches ["MO"; "WE"] (mk_date x)
  | Ok None =>
      (∀ x, toordinal sep_2 <= x <= toordinal dec_13 → ¬ day_matches ["MO"; "WE"] (mk_date x)) ∧
      (toordinal dec_13 < toordinal sep_2 ∨ toordinal dec_13 < MAXORDINAL)
  | Raise e =>
      e = DateRangeError (MAXORDINAL + 1) ∧
      (∀ x, toordinal sep_2 <= x <= toordinal dec_13 → ¬ day_matches ["MO"; "WE"] (mk_date x)) ∧
      toordinal sep_2 <= toordinal dec_13 ∧ dec_13 = date_max
  end.
Proof.
  apply (first_matching_date_spec sep_2 dec_13 ["MO"; "WE"]).
  - vm_compute. split; discriminate.
  - vm_compute. split; discriminate.
  - exact valid_code_MO_WE.
Defined.

(** C1 at the last date.  The window is the single day 9999-12-31, a
    Friday, and the day asked for is Monday: no date of the window matches,
    and instead of returning [None] the function raises, because it steps
    to the day after [term_end] before it tests the guard again. *)
Theorem first_matching_date_last_day_raises :
  valid_date date_max ∧ weekday date_max = 4 ∧ day_index "MO" = Ok 0 ∧
  first_matching_date date_max date_max ["MO"] = Raise (DateRangeError 3652060).
Proof.
  split; [vm_compute; split; discriminate |]. by vm_compute.
Qed.

(** C9 at the last date.  With an empty day list and a window that ends on
    9999-12-31 the function raises; it returns [None] for the same list on
    a window that ends a day earlier, or that is empty. *)
Theorem first_matching_date_empty_days_raises :
  first_matching_date date_max date_max [] = Raise (DateRangeError 3652060) ∧
  first_matching_date (mk_date (MAXORDINAL - 30)) date_max [] = Raise (DateRangeError 3652060) ∧
  first_matching_date (mk_date (MAXORDINAL - 1)) (mk_date (MAXORDINAL - 1)) [] = Ok None ∧
  first_matching_date date_max (mk_date 1) [] = Ok None.
Proof. by vm_compute. Qed.

(** ** Validation *)

Lemma check_day_inv i d u : check_day i d = Ok u → valid_code d.
Proof. unfold check_day, valid_code. by destruct (DAY_MAP !! d). Qed.

Lemma check_day_index i j d : check_day i d = Ok tt → check_day j d = Ok tt.
Proof. unfold check_day. by destruct (DAY_MAP !! d). Qed.

Lemma for_each_check_day i ds : for_each (check_day i) ds = Ok tt → Forall valid_code ds.
Proof.
  induction ds as [|d ds IH]; simpl; [constructor |].
  destruct (check_day i d) as [[]|] eqn:Hd; simpl; [|discriminate].
  intros H. constructor; [by eapply check_day_inv | by apply IH].
Qed.

Lemma validate_event_valid i e : validate_event i e = Ok tt → event_valid e.
Proof.
  unfold validate_event, event_valid.
  destruct (title e) as [ti|]; [|discriminate].
  destruct (days e) as [ds|]; [|discriminate].
  destruct (start e) as [s|]; [|discriminate].
  destruct (end_ e) as [en|]; [|discriminate].
  destruct (for_each (check_day i) ds) as [[]|] eqn:Hds; [|discriminate]. simpl.
  destruct (parse_hhmm s) as [st|] eqn:Hs; [|discriminate]. simpl.
  destruct (parse_hhmm en) as [et|] eqn:He; [|discriminate]. intros _.
  exists ti, ds, s, en, st, et. eauto 10 using for_each_check_day.
Qed.

Lemma validate_from_valid evs : ∀ i, validate_from i evs = Ok tt → Forall event_valid evs.
Proof.
  induction evs as [|e evs IH]; intros i; simpl; [constructor |].
  destruct (validate_event i e) as [[]|] eqn:He; [|discriminate]. simpl.
  intros H. constructor; [by eapply validate_event_valid | by eapply IH].
Qed.

(** Whether an event passes does not depend on its position. *)
Lemma validate_event_index i j e : validate_event i e = Ok tt → validate_event j e = Ok tt.
Proof.
  unfold validate_event.
  destruct (title e), (days e) as [ds|], (start e), (end_ e); try discriminate.
  assert (for_each (check_day i) ds = Ok tt → for_each (check_day j) ds = Ok tt) as Hds.
  { induction ds as [|d ds IH]; simpl; [done |].
    destruct (check_day i d) as [[]|] eqn:Hd; simpl; [|discriminate].
    by rewrite (check_day_index i j d Hd). }
  destruct (for_each (check_day i) ds) as [[]|]; [|discriminate].
  by rewrite Hds.
Qed.

Lemma validate_from_first_violation (pre : list event) (e : event) (rest : list event) x :
  Forall (λ ev, validate_event 1 ev = Ok tt) pre →
  ∀ i, validate_event (i + length pre) e = Raise x →
       validate_from i (pre ++ e :: rest) = Raise x.
Proof.
  induction 1 as [|p pre Hp _ IH]; intros i He; simpl in *.
  - replace (i + 0)%nat with i in He by lia. by rewrite He.
  - rewrite (validate_event_index 1 i p Hp). simpl. apply IH.
    by replace (S i + length pre)%nat with (i + S (length pre))%nat by lia.
Qed.

Lemma for_each_check_day_violation i ds :
  for_each (check_day i) ds =
  match head (filter (λ d, DAY_MAP !! d = None) ds) with
  | Some d => Raise (ValueError (invalid_day_message i d))
  | None => Ok tt
  end.
Proof.
  induction ds as [|d ds IH]; [done |].
  cbn [for_each]. rewrite filter_cons.
  destruct (DAY_MAP !! d) as [w|] eqn:Hd.
  - assert (check_day i d = Ok tt) as -> by (unfold check_day; by rewrite Hd).
    rewrite decide_False by done. by rewrite <- IH.
  - assert (check_day i d = Raise (ValueError (invalid_day_message i d))) as ->
      by (unfold check_day; by rewrite Hd).
    by rewrite decide_True by done.
Qed.

(** The checks on one event, in their order. *)
Lemma validate_event_violation i e :
  validate_event i e =
  match event_violation i e with
  | Some x => Raise x
  | None => Ok tt
  end.
Proof.
  unfold validate_event, event_violation.
  destruct (title e), (days e) as [ds|], (start e) as [st|], (end_ e) as [en|]; try done.
  rewrite for_each_check_day_violation.
  destruct (head (filter (λ d, DAY_MAP !! d = None) ds)); [done |]. simpl.
  destruct (parse_hhmm st); [|done]. simpl. by destruct (parse_hhmm en).
Qed.

Lemma event_violation_none i e :
  event_violation i e = None → validate_event 1 e = Ok tt.
Proof.
  intros H. apply (validate_event_index i). by rewrite validate_event_violation, H.
Qed.

(** Validation raises at the first event that has a violation, in the
    order of the list, and what it raises is the first violation of that
    event at its 1-based position: missing fields before day codes, day
    codes before times.  The events behind it are not looked at. *)
Theorem validate_first_violation (pre : list event) (e : event) (rest : list event) x :
  Forall (λ ev, event_violation 1 ev = None) pre →
  event_violation (S (length pre)) e = Some x →
  validate (pre ++ e :: rest) = Raise x.
Proof.
  intros Hpre He. apply validate_from_first_violation.
  - eapply Forall_impl; [exact Hpre |]. intros ev. apply event_violation_none.
  - change (validate_event (S (length pre)) e = Raise x).
    by rewrite validate_event_violation, He.
Qed.

Lemma validate_first_violation_witness :
  validate ([algorithms; lab] ++ untitled :: [late])
  = Raise (ValueError "Event #3 is missing required keys (title/days/start/end).").
Proof.
  apply (validate_first_violation [algorithms; lab] untitled [late]).
  - repeat constructor.
  - reflexivity.
Defined.

(** C5 for a time that does not parse.  The exception is the one
    [parse_hhmm] raised: it is the same whether the event is first or
    third in the list, so it does not tell the position, while a missing
    key and an unknown day code are reported with the position. *)
Theorem validate_time_error_without_position :
  validate [late] = Raise (TimeFieldError "hour") ∧
  validate [algorithms; lab; late] = Raise (TimeFieldError "hour") ∧
  validate [algorithms; lab; untitled]
  = Raise (ValueError "Event #3 is missing required keys (title/days/start/end).") ∧
  validate [algorithms; mk_event (Some "Gym") (Some ["MO"; "Fri"]) (Some "7:00") (Some "8:00") None None]
  = Raise (ValueError "Event #2 has invalid day 'Fri'. Use MO,TU,WE,TH,FR,SA,SU.").
Proof. by vm_compute. Qed.

(** ** The calendar document *)

Lemma str_join_crlf ls : ls ≠ [] → str_join CRLF ls +:+ CRLF = crlf_lines ls.
Proof.
  induction ls as [|l ls IH]; [done |]. intros _.
  destruct ls as [|l' ls]; [done |].
  change (str_join CRLF (l :: l' :: ls)) with (l +:+ CRLF +:+ str_join CRLF (l' :: ls)).
  rewrite !append_assoc, IH by done. done.
Qed.




(** C7.  For the term 2024-09-02 (a Monday) to 2024-12-13 and the single
    event Algorithms on MO and WE from 10:00 to 11:15, the first occurrence
    is 2024-09-02 and the document has one VEVENT with
    DTSTART:20240902T100000, DTEND:20240902T111500 and the rule
    FREQ=WEEKLY;BYDAY=MO,WE;UNTIL=20241213T235959, for every hash function
    and term name. *)
Theorem build_ics_example (h : py_hash) (term : string) :
  date_of 2024 9 2 = Ok sep_2 ∧ date_of 2024 12 13 = Ok dec_13 ∧ weekday sep_2 = 0 ∧
  first_matching_date sep_2 dec_13 ["MO"; "WE"] = Ok (Some sep_2) ∧
  let lines :=
    ics_header term ++
    [ "BEGIN:VEVENT";
      "UID:" +:+ uid_of h ("Algorithms", ["MO"; "WE"], "10:00", "11:15", "2024-09-02", "2024-12-13");
      "SUMMARY:Algorithms";
      "DTSTART:20240902T100000";
      "DTEND:20240902T111500";
      "RRULE:FREQ=WEEKLY;BYDAY=MO,WE;UNTIL=20241213T235959";
      "LOCATION:";
      "DESCRIPTION:";
      "END:VEVENT";
      "END:VCALENDAR" ] in
  ics_lines h term sep_2 dec_13 [algorithms] = Ok lines ∧
  build_ics h term sep_2 dec_13 [algorithms] = Ok (str_join CRLF lines +:+ CRLF).
Proof.
  split; [by vm_compute |]. split; [by vm_compute |]. split; [by vm_compute |].
  split; [by vm_compute |].
  intros lines.
  assert (ics_lines h term sep_2 dec_13 [algorithms] = Ok lines) as Hlines.
  { vm_compute. reflexivity. }
  split; [done |]. unfold build_ics. by rewrite Hlines.
Qed.

(** C8 at the last date.  The term is the single day 9999-12-31, a Friday,
    and the one event, which passes validation, is on Sunday: it has no
    occurrence in the window, and [build_ics] raises instead of leaving it
    out.  For the single Monday 2024-09-02 the same event is left out and
    the document holds no VEVENT. *)
Theorem build_ics_last_day_raises (h : py_hash) (term : string) :
  validate [seminar] = Ok tt ∧
  build_ics h term date_max date_max [seminar] = Raise (DateRangeError 3652060) ∧
  ics_lines h term sep_2 sep_2 [seminar] = Ok (ics_header term ++ ["END:VCALENDAR"]).
Proof.
  split; [by vm_compute |]. split; [by vm_compute |]. vm_compute. reflexivity.
Qed.

(** ** The UID *)

Lemma bounded_search (f : nat → nat) (v n : nat) :
  (∃ i, (i <= n)%nat ∧ f i = v) ∨ (∀ i, (i <= n)%nat → f i ≠ v).
Proof.
  induction n as [|n [(i & Hi & Hv)|Hnone]].
  - destruct (decide (f 0%nat = v)) as [Hv|Hv].
    + left. exists 0%nat. split; [lia | done].
    + right. intros i Hi. by replace i with 0%nat by lia.
  - left. exists i. split; [lia | done].
  - destruct (decide (f (S n) = v)) as [Hv|Hv].
    + left. exists (S n). split; [lia | done].
    + right. intros i Hi. destruct (decide (i = S n)) as [->|]; [done |].
      apply Hnone. lia.
Qed.

(** [n + 1] arguments cannot have [n] pairwise different values. *)
Lemma pigeonhole (n : nat) : ∀ f : nat → nat,
  (∀ i, (i <= n)%nat → (f i < n)%nat) →
  ∃ i j, (i < j)%nat ∧ (j <= n)%nat ∧ f i = f j.
Proof.
  induction n as [|n IH]; intros f Hf.
  - specialize (Hf 0%nat). lia.
  - destruct (bounded_search f (f (S n)) n) as [(i & Hi & Hv)|Hnone].
    { exists i, (S n). split; [lia |]. split; [lia | done]. }
    set (g := λ i, if decide (f i < f (S n))%nat then f i else (f i - 1)%nat).
    destruct (IH g) as (i & j & Hij & Hj & Hg).
    { intros i Hi. unfold g. specialize (Hnone i Hi).
      pose proof (Hf i ltac:(lia)). pose proof (Hf (S n) ltac:(lia)).
      case_decide; lia. }
    exists i, j. split; [done |]. split; [lia |].
    pose proof (Hnone i ltac:(lia)). pose proof (Hnone j ltac:(lia)).
    unfold g in Hg. repeat case_decide; lia.
Qed.

Lemma length_repeat_char c n : String.length (repeat_char c n) = n.
Proof. induction n as [|n IH]; simpl; [done | by rewrite IH]. Qed.

Lemma title_n_inj i j : title_n i = title_n j → i = j.
Proof.
  intros H. apply (f_equal String.length) in H.
  unfold title_n in H. by rewrite !length_repeat_char in H.
Qed.

(** Whatever 64-bit values the hash function has, two different titles
    give the same UID, all else equal: there are more titles than values. *)
Lemma uid_title_collision (h : py_hash) ts te ds s en :
  hash_range h →
  ∃ ti ti', ti ≠ ti' ∧
    uid_of h (event_key ts te ti ds s en) = uid_of h (event_key ts te ti' ds s en).
Proof.
  intros Hr.
  set (N := Z.to_nat (2 ^ 63 + 1)).
  set (f := λ i : nat, Z.to_nat (Z.abs (h (event_key ts te (title_n i) ds s en)))).
  destruct (pigeonhole N f) as (i & j & Hij & _ & Hf).
  { intros i _. unfold f, N. specialize (Hr (event_key ts te (title_n i) ds s en)).
    apply Z2Nat.inj_lt; lia. }
  exists (title_n i), (title_n j). split.
  - intros E%title_n_inj. lia.
  - unfold uid_of. f_equal. f_equal. unfold f in Hf.
    apply Z2Nat.inj in Hf; [done | lia | lia].
Qed.

(** No hash function with 64-bit values gives different UIDs to all
    events that differ in the title. *)
Lemma uid_not_injective :
  ¬ ∃ h : py_hash, hash_range h ∧
      ∀ ts te ti ti' ds s en, ti ≠ ti' →
        uid_of h (event_key ts te ti ds s en) ≠ uid_of h (event_key ts te ti' ds s en).
Proof.
  intros (h & Hr & Hinj).
  destruct (uid_title_collision h date_max date_max [] "" "" Hr) as (ti & ti' & Hne & Heq).
  exact (Hinj date_max date_max ti ti' [] "" "" Hne Heq).
Qed.

(** The hash function of CPython has 64-bit values, under every key. *)
Lemma tuple_hash_range lanes : - 2 ^ 63 <= tuple_hash lanes < 2 ^ 63.
Proof.
  unfold tuple_hash. case_match; [lia |].
  unfold signed64, w64.
  match goal with |- context [?a mod 2 ^ 64] => pose proof (Z.mod_pos_bound a (2 ^ 64)) end.
  case_match; lia.
Qed.

Lemma cpython_hash_range secret : hash_range (cpython_hash secret).
Proof. intros [[[[[ti ds] s] en] ts] te]. apply tuple_hash_range. Qed.

(** C2.  The term and the event of the example (2024-09-02 to 2024-12-13,
    Algorithms on MO and WE from 10:00 to 11:15), built in two processes
    of the interpreter, one started with the hash seed 1 and one with the
    hash seed 2: the input is the same and the UID lines differ, so the
    documents differ.  The UID is not stable across runs. *)
Theorem uid_differs_between_runs :
  (.!! 6%nat) <$> ics_lines (cpython_hash (hash_secret 1)) "Fall 2024" sep_2 dec_13 [algorithms]
  = Ok (Some "UID:985777863262157652@school-calendar") ∧
  (.!! 6%nat) <$> ics_lines (cpython_hash (hash_secret 2)) "Fall 2024" sep_2 dec_13 [algorithms]
  = Ok (Some "UID:1415277444233043548@school-calendar") ∧
  build_ics (cpython_hash (hash_secret 1)) "Fall 2024" sep_2 dec_13 [algorithms]
  ≠ build_ics (cpython_hash (hash_secret 2)) "Fall 2024" sep_2 dec_13 [algorithms].
Proof.
  split; [by vm_compute |]. split; [by vm_compute |]. by vm_compute.
Qed.

(** ** The store and the weekly view *)

Section store_lemmas.
Context {A B : Type}.
Implicit Types (m : M A) (k : A → M B).

Lemma readonly_ret (a : A) : readonly (m_ret a).
Proof. done. Qed.

Lemma readonly_lift (r : result A) : readonly (m_lift r).
Proof. done. Qed.

Lemma readonly_bind m k : readonly m → (∀ a, readonly (k a)) → readonly (m_bind m k).
Proof.
  intros Hm Hk σ. unfold m_bind. specialize (Hm σ).
  destruct (m σ) as [[a|e] σ1]; simpl in *; subst; [apply Hk | done].
Qed.

Lemma heap_const_bind m k : heap_const m → (∀ a, heap_const (k a)) → heap_const (m_bind m k).
Proof.
  intros Hm Hk σ. unfold m_bind. specialize (Hm σ).
  destruct (m σ) as [[a|e] σ1]; simpl in *; [by rewrite Hk | done].
Qed.

Lemma heap_grows_bind m k : heap_grows m → (∀ a, heap_grows (k a)) → heap_grows (m_bind m k).
Proof.
  intros Hm Hk σ. unfold m_bind. specialize (Hm σ).
  destruct (m σ) as [[a|e] σ1]; simpl in *; [by etrans; [|apply Hk] | done].
Qed.

Lemma readonly_heap_const m : readonly m → heap_const m.
Proof. intros H σ. by rewrite H. Qed.

Lemma heap_const_grows m : heap_const m → heap_grows m.
Proof. intros H σ. by rewrite H. Qed.

End store_lemmas.

Lemma readonly_read_list l : readonly (read_list l).
Proof. intros σ. unfold read_list. by repeat case_match. Qed.

Lemma readonly_read_dict l : readonly (read_dict l).
Proof. intros σ. unfold read_dict. by repeat case_match. Qed.

Lemma readonly_m_map {A B : Type} (f : A → M B) l :
  (∀ x, readonly (f x)) → readonly (m_map f l).
Proof.
  intros Hf. induction l as [|x l IH]; simpl; [done |].
  apply readonly_bind; [done |]. intros y.
  apply readonly_bind; [done |]. intros ys. apply readonly_ret.
Qed.

Lemma readonly_m_filter {A : Type} (p : A → M bool) l :
  (∀ x, readonly (p x)) → readonly (m_filter p l).
Proof.
  intros Hp. induction l as [|x l IH]; simpl; [done |].
  apply readonly_bind; [done |]. intros y.
  apply readonly_bind; [done |]. intros ys. apply readonly_ret.
Qed.

Lemma heap_const_print s : heap_const (print s).
Proof. by intros σ. Qed.

Lemma heap_const_m_for_each {A : Type} (body : A → M unit) l :
  (∀ x, heap_const (body x)) → heap_const (m_for_each body l).
Proof.
  intros Hb. induction l as [|x l IH]; simpl; [by intros σ |].
  by apply heap_const_bind.
Qed.

Lemma heap_grows_m_for_each {A : Type} (body : A → M unit) l :
  (∀ x, heap_grows (body x)) → heap_grows (m_for_each body l).
Proof.
  intros Hb. induction l as [|x l IH]; simpl; [by intros σ |].
  by apply heap_grows_bind.
Qed.

Lemma readonly_load_events events : readonly (load_events events).
Proof.
  apply readonly_bind; [apply readonly_read_list |]. intros refs.
  apply readonly_m_map. apply readonly_read_dict.
Qed.

Lemma readonly_day_test d r :
  readonly (do e <- read_dict r;
            do ds <- m_lift (getitem "days" (days e));
            m_ret (bool_decide (d ∈ ds))).
Proof.
  apply readonly_bind; [apply readonly_read_dict |]. intros e.
  apply readonly_bind; [apply readonly_lift |]. intros ds. apply readonly_ret.
Qed.

Lemma readonly_start_key r :
  readonly (do e <- read_dict r; m_lift (getitem "start" (start e))).
Proof.
  apply readonly_bind; [apply readonly_read_dict |]. intros e. apply readonly_lift.
Qed.

(** The selection allocates one list object, at an address not in use,
    and writes nothing else. *)
Lemma select_day_alloc d events σ :
  match select_day d events σ with
  | (Ok l, σ') => heap σ !! l = None ∧ ∃ o, heap σ' = <[l := o]> (heap σ)
  | (Raise _, σ') => σ' = σ
  end.
Proof.
  unfold select_day, m_bind.
  pose proof (readonly_read_list events σ) as H1.
  destruct (read_list events σ) as [[refs|e] σ1]; simpl in H1; subst; [|done].
  match goal with |- context [m_filter ?p refs σ] =>
    pose proof (readonly_m_filter p refs (readonly_day_test d) σ) as H2;
    destruct (m_filter p refs σ) as [[items|e] σ2] end; simpl in H2; subst; [|done].
  simpl. split; [|by eexists].
  apply not_elem_of_dom. apply is_fresh.
Qed.

(** Sorting writes the list object it is given and nothing else. *)
Lemma sort_by_start_write l σ :
  heap (sort_by_start l σ).2 = heap σ ∨ ∃ o, heap (sort_by_start l σ).2 = <[l := o]> (heap σ).
Proof.
  unfold sort_by_start, m_bind.
  pose proof (readonly_read_list l σ) as H1.
  destruct (read_list l σ) as [[refs|e] σ1]; simpl in H1; subst; [|by left].
  match goal with |- context [m_map ?f refs σ] =>
    pose proof (readonly_m_map f refs readonly_start_key σ) as H2;
    destruct (m_map f refs σ) as [[keys|e] σ2] end; simpl in H2; subst; [|by left].
  right. by eexists.
Qed.

(** One day of the view leaves every object that existed as it was: the
    list it sorts is the one it has just made. *)
Lemma heap_grows_print_day events d : heap_grows (print_day events d).
Proof.
  intros σ. unfold print_day. unfold m_bind at 1.
  pose proof (select_day_alloc d events σ) as Hsel.
  destruct (select_day d events σ) as [[l|e] σ1]; [|by subst].
  destruct Hsel as (Hfresh & o & Hσ1).
  unfold m_bind at 1.
  pose proof (sort_by_start_write l σ1) as Hsort.
  destruct (sort_by_start l σ1) as [[[]|e] σ2]; simpl in Hsort.
  - match goal with |- context [m_bind ?m ?k σ2] =>
      assert (heap_const (m_bind m k)) as Hrest end.
    { apply heap_const_bind; [apply heap_const_print |]. intros _.
      apply heap_const_bind; [apply readonly_heap_const, readonly_read_list |].
      intros [|r refs]; [apply heap_const_print |].
      apply heap_const_m_for_each. intros r'.
      apply heap_const_bind; [apply readonly_heap_const, readonly_read_dict |]. intros e.
      apply heap_const_bind; [apply readonly_heap_const, readonly_lift |]. intros ln.
      apply heap_const_print. }
    rewrite Hrest.
    destruct Hsort as [->|[o' ->]]; rewrite Hσ1, ?insert_insert_eq; by apply insert_subseteq.
  - simpl. destruct Hsort as [->|[o' ->]]; rewrite Hσ1, ?insert_insert_eq; by apply insert_subseteq.
Qed.

Lemma heap_grows_print_week_view events : heap_grows (print_week_view events).
Proof.
  unfold print_week_view.
  apply heap_grows_bind; [apply heap_const_grows, heap_const_print |]. intros _.
  apply heap_grows_bind; [apply heap_const_grows, heap_const_print |]. intros _.
  apply heap_grows_m_for_each. apply heap_grows_print_day.
Qed.

(** Reading the events sees only objects that exist: a heap that keeps
    them gives the same events. *)
Lemma m_map_read_dict_mono refs σ σ' evs :
  heap σ ⊆ heap σ' →
  (m_map read_dict refs σ).1 = Ok evs → (m_map read_dict refs σ').1 = Ok evs.
Proof.
  intros Hsub. revert evs. induction refs as [|r refs IH]; intros evs; simpl; [done |].
  unfold m_bind at 1 3. unfold read_dict at 1 3.
  destruct (heap σ !! r) as [[|e]|] eqn:Hr; try discriminate.
  rewrite (lookup_weaken _ _ _ _ Hr Hsub).
  unfold m_bind.
  pose proof (readonly_m_map read_dict refs readonly_read_dict σ) as R1.
  pose proof (readonly_m_map read_dict refs readonly_read_dict σ') as R2.
  destruct (m_map read_dict refs σ) as [[evs1|] σ1]; [|discriminate].
  specialize (IH evs1 eq_refl).
  destruct (m_map read_dict refs σ') as [[evs2|] σ2]; [|discriminate].
  simpl in *. by simplify_eq.
Qed.

Lemma load_events_mono events σ σ' evs :
  heap σ ⊆ heap σ' →
  (load_events events σ).1 = Ok evs → (load_events events σ').1 = Ok evs.
Proof.
  intros Hsub. unfold load_events, m_bind. unfold read_list.
  destruct (heap σ !! events) as [[refs|]|] eqn:Hl; try discriminate.
  rewrite (lookup_weaken _ _ _ _ Hl Hsub). by apply m_map_read_dict_mono.
Qed.

Lemma build_ics_at_load h term ts te events σ evs :
  (load_events events σ).1 = Ok evs →
  (build_ics_at h term ts te events σ).1 = build_ics h term ts te evs.
Proof.
  unfold build_ics_at, m_bind. destruct (load_events events σ) as [[evs'|] σ1]; [|discriminate].
  by intros [= ->].
Qed.

(** C10.  [print_week_view] leaves every object of the store as it was:
    the lists it sorts in place are the ones it has made itself.  The event
    list read after printing is the one read before, in order and content,
    and the calendar built from it is the same with or without the
    printing. *)
Theorem print_week_view_frame (events : loc) (σ : store) (evs : list event) :
  (load_events events σ).1 = Ok evs →
  let σ' := (print_week_view events σ).2 in
  heap σ ⊆ heap σ' ∧
  (load_events events σ').1 = Ok evs ∧
  ∀ h term ts te,
    (build_ics_at h term ts te events σ').1 = (build_ics_at h term ts te events σ).1.
Proof.
  intros Hload σ'. pose proof (heap_grows_print_week_view events σ) as Hsub.
  split; [done |].
  pose proof (load_events_mono events σ σ' evs Hsub Hload) as Hload'.
  split; [done |]. intros h term ts te.
  by rewrite !(build_ics_at_load _ _ _ _ _ _ evs).
Qed.

Lemma print_week_view_frame_witness :
  let σ := store_of [lecture; algorithms; lab] in
  let σ' := (print_week_view 1%positive σ).2 in
  heap σ ⊆ heap σ' ∧
  (load_events 1%positive σ').1 = Ok [lecture; algorithms; lab] ∧
  ∀ h term ts te,
    (build_ics_at h term ts te 1%positive σ').1 = (build_ics_at h term ts te 1%positive σ).1.
Proof.
  apply (print_week_view_frame 1%positive (store_of [lecture; algorithms; lab])
           [lecture; algorithms; lab]).
  reflexivity.
Defined.

(** C4 for hours written without a leading zero.  Lab starts at 9:00 and
    Lecture at 10:00, both on Monday and both accepted by the validator;
    the view lists Lecture first, because the sort compares the start
    strings and "10:00" is below "9:00" as a string. *)
Theorem week_view_sorts_start_strings :
  validate [lab; lecture] = Ok tt ∧
  parse_hhmm "9:00" = Ok (mk_time 9 0 0) ∧ parse_hhmm "10:00" = Ok (mk_time 10 0 0) ∧
  String.ltb "10:00" "9:00" = true ∧
  (print_week_view 1%positive (store_of [lab; lecture])).1 = Ok tt ∧
  stdout (print_week_view 1%positive (store_of [lab; lecture])).2 =
    [ String LF "WEEKLY VIEW"; "----------------------------------------";
      String LF "MO:"; "  10:00–10:50  Lecture"; "  9:00–9:50  Lab";
      String LF "TU:"; "  (none)";
      String LF "WE:"; "  (none)";
      String LF "TH:"; "  (none)";
      String LF "FR:"; "  (none)";
      String LF "SA:"; "  (none)";
      String LF "SU:"; "  (none)" ].
Proof. by vm_compute. Qed.

(** ** What the weekly view prints *)

Lemma objs_mono σ σ' refs evs : heap σ ⊆ heap σ' → objs σ refs evs → objs σ' refs evs.
Proof.
  intros Hsub H. eapply Forall2_impl; [exact H |]. intros r e Hr. simpl in *.
  exact (lookup_weaken _ _ _ _ Hr Hsub).
Qed.

Lemma load_events_inv events σ evs :
  (load_events events σ).1 = Ok evs →
  ∃ refs, heap σ !! events = Some (OList refs) ∧ objs σ refs evs.
Proof.
  unfold load_events, m_bind, read_list.
  destruct (heap σ !! events) as [[refs|]|]; try discriminate.
  intros H. exists refs. split; [done |].
  revert evs H. induction refs as [|r refs IH]; intros evs; simpl.
  - intros [= <-]. constructor.
  - unfold m_bind at 1. unfold read_dict at 1.
    destruct (heap σ !! r) as [[|e]|] eqn:Hr; try discriminate.
    unfold m_bind.
    destruct (m_map read_dict refs σ) as [[evs1|] σ1]; [|discriminate].
    simpl. intros [= <-]. constructor; [done | by apply IH].
Qed.

Lemma read_dict_obj σ r e : heap σ !! r = Some (ODict e) → read_dict r σ = (Ok e, σ).
Proof. intros H. unfold read_dict. by rewrite H. Qed.

Lemma read_list_obj σ l refs : heap σ !! l = Some (OList refs) → read_list l σ = (Ok refs, σ).
Proof. intros H. unfold read_list. by rewrite H. Qed.

Lemma m_bind_ok {A B : Type} (m : M A) (k : A → M B) σ a σ1 :
  m σ = (Ok a, σ1) → m_bind m k σ = k a σ1.
Proof. intros H. unfold m_bind. by rewrite H. Qed.

Lemma day_test_run d σ r e ds :
  heap σ !! r = Some (ODict e) → days e = Some ds →
  (do e <- read_dict r;
   do ds <- m_lift (getitem "days" (days e));
   m_ret (bool_decide (d ∈ ds))) σ = (Ok (bool_decide (d ∈ ds)), σ).
Proof.
  intros Hr Hds. rewrite (m_bind_ok _ _ σ e σ) by by apply read_dict_obj.
  by rewrite Hds.
Qed.

Lemma start_key_run σ r e :
  heap σ !! r = Some (ODict e) → is_Some (start e) →
  (do e <- read_dict r; m_lift (getitem "start" (start e))) σ = (Ok (start_key e), σ).
Proof.
  intros Hr [s Hs]. rewrite (m_bind_ok _ _ σ e σ) by by apply read_dict_obj.
  unfold start_key. by rewrite Hs.
Qed.

Lemma m_filter_days d σ refs evs :
  objs σ refs evs → Forall has_keys evs →
  ∃ refs',
    m_filter (λ r, do e <- read_dict r;
                   do ds <- m_lift (getitem "days" (days e));
                   m_ret (bool_decide (d ∈ ds))) refs σ = (Ok refs', σ) ∧
    objs σ refs' (filter (λ e, on_day d e = true) evs).
Proof.
  induction 1 as [|r e refs evs Hr _ IH]; intros Hk.
  - exists []. split; [done | constructor].
  - inversion_clear Hk as [|? ? (_ & [ds Hds] & _) Hk'].
    destruct (IH Hk') as (refs' & Hf & Hobjs).
    assert (on_day d e = bool_decide (d ∈ ds)) as Hon by (unfold on_day; by rewrite Hds).
    cbn [m_filter].
    rewrite (m_bind_ok _ _ σ (on_day d e) σ) by (rewrite Hon; by eapply day_test_run).
    rewrite (m_bind_ok _ _ σ refs' σ) by done. cbn [m_ret].
    destruct (on_day d e) eqn:Hb.
    + rewrite filter_cons_True by done. exists (r :: refs'). split; [done | by constructor].
    + rewrite filter_cons_False by congruence. exists refs'. by split.
Qed.

Lemma m_map_keys σ refs evs :
  objs σ refs evs → Forall has_keys evs →
  m_map (λ r, do e <- read_dict r; m_lift (getitem "start" (start e))) refs σ
  = (Ok (start_key <$> evs), σ).
Proof.
  induction 1 as [|r e refs evs Hr _ IH]; intros Hk; [done |].
  inversion_clear Hk as [|? ? (_ & _ & Hs & _) Hk'].
  cbn [m_map].
  rewrite (m_bind_ok _ _ σ (start_key e) σ) by by apply start_key_run.
  by rewrite (m_bind_ok _ _ σ (start_key <$> evs) σ) by auto.
Qed.

(** Sorting two lists by the same keys moves their elements alike. *)
Lemma insert_keyed_alike {A B : Type} (R : A → B → Prop) k x y l1 l2 :
  R x y → Forall2 (λ a b, a.1 = b.1 ∧ R a.2 b.2) l1 l2 →
  Forall2 (λ a b, a.1 = b.1 ∧ R a.2 b.2) (insert_keyed k x l1) (insert_keyed k y l2).
Proof.
  intros Hxy. induction 1 as [|[k1 a] [k2 b] l1 l2 [Hk Hab] HF IH]; simpl in *.
  - by repeat constructor.
  - subst k2. destruct (String.ltb k1 k).
    + constructor; [by split | done].
    + constructor; [by split |]. constructor; [by split | done].
Qed.

Lemma sort_keyed_alike {A B : Type} (R : A → B → Prop) l1 l2 :
  Forall2 (λ a b, a.1 = b.1 ∧ R a.2 b.2) l1 l2 →
  Forall2 (λ a b, a.1 = b.1 ∧ R a.2 b.2) (sort_keyed l1) (sort_keyed l2).
Proof.
  induction 1 as [|[k1 a] [k2 b] l1 l2 [Hk Hab] _ IH]; simpl in *; [constructor |].
  subst k2. by apply insert_keyed_alike.
Qed.

Lemma sorted_objs σ refs evs :
  objs σ refs evs →
  objs σ (snd <$> sort_keyed (zip (start_key <$> evs) refs))
         (snd <$> sort_keyed ((λ e, (start_key e, e)) <$> evs)).
Proof.
  intros H. unfold objs. apply Forall2_fmap.
  eapply Forall2_impl; [apply (sort_keyed_alike (λ r e, heap σ !! r = Some (ODict e))) |].
  - induction H as [|r e refs evs Hr _ IH]; simpl; [constructor |].
    constructor; [done | apply IH].
  - by intros [] [] [_ ?].
Qed.

Lemma view_line_keys e : has_keys e → view_line e = Ok (line_of e).
Proof.
  intros ([ti Ht] & _ & [s Hs] & [en He]). unfold view_line, line_of.
  by rewrite Ht, Hs, He.
Qed.

Lemma print_item_run σ r e :
  heap σ !! r = Some (ODict e) → has_keys e →
  (do e <- read_dict r; do ln <- m_lift (view_line e); print ln) σ
  = (Ok tt, mk_store (heap σ) (stdout σ ++ [line_of e])).
Proof.
  intros Hr Hk. rewrite (m_bind_ok _ _ σ e σ) by by apply read_dict_obj.
  by rewrite (view_line_keys e Hk).
Qed.

Lemma print_items refs : ∀ σ evs,
  objs σ refs evs → Forall has_keys evs →
  m_for_each (λ r, do e <- read_dict r; do ln <- m_lift (view_line e); print ln) refs σ
  = (Ok tt, mk_store (heap σ) (stdout σ ++ (line_of <$> evs))).
Proof.
  induction refs as [|r refs IH]; intros σ evs H Hk.
  - inversion H; subst. simpl. unfold m_ret. rewrite app_nil_r. by destruct σ.
  - inversion H as [|? e ? evs' Hr H']; subst.
    inversion_clear Hk as [|? ? Hke Hk'].
    cbn [m_for_each].
    rewrite (m_bind_ok _ _ σ tt (mk_store (heap σ) (stdout σ ++ [line_of e])))
      by by apply print_item_run.
    rewrite (IH _ evs') by done. simpl. by rewrite <- app_assoc.
Qed.

Lemma select_day_run d events σ refs evs :
  heap σ !! events = Some (OList refs) → objs σ refs evs → Forall has_keys evs →
  ∃ l refs',
    select_day d events σ = (Ok l, mk_store (<[l := OList refs']> (heap σ)) (stdout σ)) ∧
    heap σ !! l = None ∧
    objs σ refs' (filter (λ e, on_day d e = true) evs).
Proof.
  intros Hl Hobjs Hk.
  destruct (m_filter_days d σ refs evs Hobjs Hk) as (refs' & Hf & Hobjs').
  exists (fresh (dom (heap σ))), refs'. split; [|split; [|done]].
  - unfold select_day.
    rewrite (m_bind_ok _ _ σ refs σ) by by apply read_list_obj.
    by rewrite (m_bind_ok _ _ σ refs' σ) by done.
  - apply not_elem_of_dom, is_fresh.
Qed.

Lemma sort_by_start_run l σ refs evs :
  heap σ !! l = Some (OList refs) → objs σ refs evs → Forall has_keys evs →
  sort_by_start l σ
  = (Ok tt, mk_store (<[l := OList (snd <$> sort_keyed (zip (start_key <$> evs) refs))]> (heap σ))
                     (stdout σ)).
Proof.
  intros Hl Hobjs Hk. unfold sort_by_start.
  rewrite (m_bind_ok _ _ σ refs σ) by by apply read_list_obj.
  by rewrite (m_bind_ok _ _ σ (start_key <$> evs) σ) by by apply m_map_keys.
Qed.

Lemma filter_has_keys (P : event → Prop) `{∀ e, Decision (P e)} evs :
  Forall has_keys evs → Forall has_keys (filter P evs).
Proof.
  intros H'. rewrite Forall_forall in H'. apply Forall_forall.
  intros x Hx. apply H'. by eapply list_subseteq_filter.
Qed.

Lemma insert_keyed_events x ps :
  Forall (λ p, p.1 = start_key p.2) ps →
  (insert_keyed (start_key x) x ps).*2 = insert_event x (ps.*2).
Proof.
  induction 1 as [|[k y] ps Hy _ IH]; [done |]. cbn [fst snd] in Hy. subst k.
  cbn [insert_keyed insert_event]. rewrite fmap_cons. cbn [snd insert_event].
  destruct (String.ltb (start_key y) (start_key x)); [|done].
  rewrite fmap_cons. cbn [snd]. by rewrite IH.
Qed.

Lemma insert_keyed_inv x ps :
  Forall (λ p, p.1 = start_key p.2) ps →
  Forall (λ p, p.1 = start_key p.2) (insert_keyed (start_key x) x ps).
Proof.
  induction 1 as [|[k y] ps Hy HF IH]; cbn [insert_keyed]; [by repeat constructor |].
  destruct (String.ltb k (start_key x)); repeat constructor; auto.
Qed.

(** The sort of the keyed list is the sort of the events by their start. *)
Lemma sort_keyed_events l :
  Forall (λ p, p.1 = start_key p.2) (sort_keyed ((λ e, (start_key e, e)) <$> l)) ∧
  (sort_keyed ((λ e, (start_key e, e)) <$> l)).*2 = sort_events l.
Proof.
  induction l as [|x l [IH1 IH2]]; [by split |].
  rewrite fmap_cons. cbn [sort_keyed sort_events].
  split; [by apply insert_keyed_inv |].
  by rewrite insert_keyed_events, IH2.
Qed.

Lemma insert_event_has_keys x l :
  has_keys x → Forall has_keys l → Forall has_keys (insert_event x l).
Proof.
  intros Hx. induction 1 as [|y l Hy HF IH]; simpl; [by constructor |].
  destruct (String.ltb _ _); [by constructor |].
  constructor; [done |]. by constructor.
Qed.

Lemma day_items_has_keys d evs : Forall has_keys evs → Forall has_keys (day_items d evs).
Proof.
  intros Hk. unfold day_items.
  apply (filter_has_keys (λ e, on_day d e = true)) in Hk.
  induction Hk as [|x l Hx HF IH]; simpl; [constructor |].
  by apply insert_event_has_keys.
Qed.

(** What one day of the view prints, and that it leaves the objects that
    existed as they were. *)
Lemma print_day_run events d σ refs evs :
  heap σ !! events = Some (OList refs) → objs σ refs evs → Forall has_keys evs →
  ∃ σ', print_day events d σ = (Ok tt, σ') ∧ heap σ ⊆ heap σ' ∧
        stdout σ' = stdout σ ++ day_block d evs.
Proof.
  intros Hl Hobjs Hk.
  destruct (select_day_run d events σ refs evs Hl Hobjs Hk) as (l & refs' & Hsel & Hfresh & Hobjs').
  set (items := filter (λ e, on_day d e = true) evs) in *.
  assert (Forall has_keys items) as Hk' by by apply filter_has_keys.
  assert (heap σ ⊆ <[l := OList refs']> (heap σ)) as Hsub1 by by apply insert_subseteq.
  assert (∀ o, heap σ ⊆ <[l := o]> (<[l := OList refs']> (heap σ))) as Hsub2.
  { intros o. rewrite insert_insert_eq. by apply insert_subseteq. }
  assert (objs σ (sort_keyed (zip (start_key <$> items) refs')).*2 (day_items d evs))
    as Hsorted.
  { unfold day_items. fold items. rewrite <- (proj2 (sort_keyed_events items)).
    by apply sorted_objs. }
  pose proof (day_items_has_keys d evs Hk) as Hkd.
  unfold print_day.
  rewrite (m_bind_ok _ _ _ _ _ Hsel).
  erewrite m_bind_ok.
  2:{ apply (sort_by_start_run l _ refs' items); [apply lookup_insert_eq | | done].
      eapply objs_mono; [|exact Hobjs']. exact Hsub1. }
  erewrite m_bind_ok by reflexivity.
  cbn [heap stdout].
  erewrite m_bind_ok by (apply read_list_obj; cbn [heap]; apply lookup_insert_eq).
  unfold day_block.
  remember (day_items d evs) as its eqn:Hits.
  remember ((sort_keyed (zip (start_key <$> items) refs')).*2) as sorted eqn:Hs.
  clear Hits Hs. unfold objs in Hsorted.
  inversion Hsorted as [|r e sorted' its' Hr Hrest]; subst.
  - eexists. split; [reflexivity |]. split; [apply Hsub2 |]. simpl. by rewrite <- app_assoc.
  - erewrite (print_items (r :: sorted') _ (e :: its')); [| |done].
    + eexists. split; [reflexivity |]. split; [apply Hsub2 |]. simpl. by rewrite <- app_assoc.
    + eapply objs_mono; [apply Hsub2 | by constructor].
Qed.

Lemma print_days_run events σ refs evs ds :
  heap σ !! events = Some (OList refs) → objs σ refs evs → Forall has_keys evs →
  ∃ σ', m_for_each (print_day events) ds σ = (Ok tt, σ') ∧ heap σ ⊆ heap σ' ∧
        stdout σ' = stdout σ ++ concat ((λ d, day_block d evs) <$> ds).
Proof.
  revert σ. induction ds as [|d ds IH]; intros σ Hl Hobjs Hk.
  - exists σ. split; [done |]. split; [done |]. simpl. by rewrite app_nil_r.
  - destruct (print_day_run events d σ refs evs Hl Hobjs Hk) as (σ1 & Hrun & Hsub & Hout).
    destruct (IH σ1) as (σ2 & Hrun2 & Hsub2 & Hout2);
      [by eapply lookup_weaken | by eapply objs_mono | done |].
    exists σ2. cbn [m_for_each]. rewrite (m_bind_ok _ _ σ tt σ1) by done.
    split; [done |]. split; [by etrans |].
    rewrite Hout2, Hout. simpl. by rewrite <- app_assoc.
Qed.

Lemma print_week_view_output events σ evs :
  (load_events events σ).1 = Ok evs → Forall has_keys evs →
  (print_week_view events σ).1 = Ok tt ∧
  stdout (print_week_view events σ).2 = stdout σ ++ week_view evs.
Proof.
  intros (refs & Hl & Hobjs)%load_events_inv Hk. unfold print_week_view.
  set (σ1 := mk_store (heap σ) (stdout σ ++ [String LF "WEEKLY VIEW"])).
  set (σ2 := mk_store (heap σ1) (stdout σ1 ++ [repeat_char "-" 40])).
  rewrite (m_bind_ok _ _ σ tt σ1) by done.
  rewrite (m_bind_ok _ _ σ1 tt σ2) by done.
  destruct (print_days_run events σ2 refs evs ORDER Hl Hobjs Hk) as (σ3 & Hrun & _ & Hout).
  rewrite Hrun. split; [done |]. cbn [snd]. rewrite Hout.
  unfold week_view. cbn [stdout σ2 σ1]. by rewrite <- !app_assoc.
Qed.

(** *** The order of a day's events *)

Lemma ltb_le a b : String.ltb a b = true → String.le a b.
Proof. unfold String.ltb, String.le, String.leb. by destruct (String.compare a b). Qed.

Lemma not_ltb_le a b : String.ltb a b = false → String.le b a.
Proof.
  unfold String.ltb, String.le, String.leb. rewrite (String.compare_antisym b a).
  by destruct (String.compare a b).
Qed.

Lemma ltb_ne a b : String.ltb a b = true → a ≠ b.
Proof.
  intros H ->. unfold String.ltb in H.
  assert (String.compare b b = Eq) as E; [|by rewrite E in H].
  destruct (String.compare b b) eqn:Hc; [done | |].
  - pose proof (String.compare_antisym b b) as Ha. rewrite Hc in Ha. discriminate.
  - pose proof (String.compare_antisym b b) as Ha. rewrite Hc in Ha. discriminate.
Qed.

Lemma insert_event_perm x l : insert_event x l ≡ₚ x :: l.
Proof.
  induction l as [|y l IH]; simpl; [done |].
  destruct (String.ltb _ _); [|done]. rewrite IH. apply Permutation_swap.
Qed.

Lemma sort_events_perm l : sort_events l ≡ₚ l.
Proof.
  induction l as [|x l IH]; simpl; [done |]. by rewrite insert_event_perm, IH.
Qed.

Lemma insert_event_sorted x l : Sorted start_le l → Sorted start_le (insert_event x l).
Proof.
  induction l as [|y l IH]; simpl; intros Hs; [by repeat constructor |].
  destruct (String.ltb (start_key y) (start_key x)) eqn:Hlt.
  - apply Sorted_inv in Hs as [Hs Hhd]. constructor; [by apply IH |].
    destruct l as [|z l]; simpl.
    + constructor. by apply ltb_le.
    + destruct (String.ltb (start_key z) (start_key x)).
      * constructor. by apply HdRel_inv in Hhd.
      * constructor. by apply ltb_le.
  - constructor; [done |]. constructor. by apply not_ltb_le.
Qed.

Lemma sort_events_sorted l : Sorted start_le (sort_events l).
Proof.
  induction l as [|x l IH]; simpl; [constructor | by apply insert_event_sorted].
Qed.

Global Instance start_le_trans : Transitive start_le.
Proof. intros a b c. unfold start_le. apply transitivity. Qed.

Lemma insert_event_stable s x l :
  filter (λ e, start_key e = s) (insert_event x l) = filter (λ e, start_key e = s) (x :: l).
Proof.
  induction l as [|y l IH]; simpl; [done |].
  destruct (String.ltb (start_key y) (start_key x)) eqn:Hlt; [|done].
  apply ltb_ne in Hlt.
  rewrite !filter_cons, IH, !filter_cons.
  destruct (decide (start_key y = s)), (decide (start_key x = s)); congruence.
Qed.

Lemma sort_events_stable s l :
  filter (λ e, start_key e = s) (sort_events l) = filter (λ e, start_key e = s) l.
Proof.
  induction l as [|x l IH]; simpl; [done |].
  by rewrite insert_event_stable, !filter_cons, IH.
Qed.

(** What [print_week_view] prints for events that have their four keys:
    the two title lines and, for MO to SU in this order, the day's header
    and either "  (none)" or one line per event of that day.  The events of
    a day are those whose day list holds the code; they are in ascending
    order of their start strings, and events with the same start string
    keep the order they have in the list. *)
Theorem week_view_contents events σ evs :
  (load_events events σ).1 = Ok evs → Forall has_keys evs →
  ((print_week_view events σ).1 = Ok tt ∧
   stdout (print_week_view events σ).2 = stdout σ ++ week_view evs) ∧
  ∀ d,
    day_items d evs ≡ₚ filter (λ e, on_day d e = true) evs ∧
    StronglySorted start_le (day_items d evs) ∧
    ∀ s, filter (λ e, start_key e = s) (day_items d evs)
         = filter (λ e, start_key e = s) (filter (λ e, on_day d e = true) evs).
Proof.
  intros Hload Hk. split; [by apply print_week_view_output |].
  intros d. unfold day_items. split; [apply sort_events_perm |].
  split; [apply Sorted_StronglySorted; [apply _ | apply sort_events_sorted] |].
  intros s. apply sort_events_stable.
Qed.

Lemma event_valid_has_keys e : event_valid e → has_keys e.
Proof.
  intros (ti & ds & s & en & st & et & Ht & Hd & _ & Hs & _ & He & _).
  unfold has_keys. rewrite Ht, Hd, Hs, He. eauto.
Qed.

Lemma validate_has_keys evs : validate evs = Ok tt → Forall has_keys evs.
Proof.
  intros H%validate_from_valid. eapply Forall_impl; [exact H |].
  apply event_valid_has_keys.
Qed.

Lemma week_view_contents_witness :
  ((print_week_view 1%positive (store_of [lecture; algorithms; lab])).1 = Ok tt ∧
   stdout (print_week_view 1%positive (store_of [lecture; algorithms; lab])).2
   = stdout (store_of [lecture; algorithms; lab]) ++ week_view [lecture; algorithms; lab]) ∧
  ∀ d,
    day_items d [lecture; algorithms; lab]
    ≡ₚ filter (λ e, on_day d e = true) [lecture; algorithms; lab] ∧
    StronglySorted start_le (day_items d [lecture; algorithms; lab]) ∧
    ∀ s, filter (λ e, start_key e = s) (day_items d [lecture; algorithms; lab])
         = filter (λ e, start_key e = s)
             (filter (λ e, on_day d e = true) [lecture; algorithms; lab]).
Proof.
  apply (week_view_contents 1%positive (store_of [lecture; algorithms; lab])
           [lecture; algorithms; lab]).
  - reflexivity.
  - repeat constructor; by eexists.
Defined.

(** [main] from the loaded configuration on, for an event list that passes
    validation: it prints the weekly view of the events and returns what
    [build_ics] gives for them. *)
Theorem main_run h term ts te events σ evs :
  (load_events events σ).1 = Ok evs → validate evs = Ok tt →
  (main h term ts te events σ).1 = build_ics h term ts te evs ∧
  stdout (main h term ts te events σ).2 = stdout σ ++ week_view evs.
Proof.
  intros Hload Hval.
  pose proof (validate_has_keys evs Hval) as Hk.
  destruct (print_week_view_output events σ evs Hload Hk) as [Hok Hout].
  pose proof (load_events_mono events σ _ evs (heap_grows_print_week_view events σ) Hload)
    as Hload'.
  pose proof (readonly_load_events events σ) as Hro.
  unfold main.
  destruct (load_events events σ) as [r σ0] eqn:El. simpl in Hload, Hro. subst r σ0.
  rewrite (m_bind_ok _ _ σ evs σ) by done.
  rewrite (m_bind_ok _ _ σ tt σ) by (by rewrite Hval).
  destruct (print_week_view events σ) as [r σ'] eqn:Ep. simpl in Hok, Hout, Hload'. subst r.
  rewrite (m_bind_ok _ _ σ tt σ') by done.
  unfold build_ics_at.
  pose proof (readonly_load_events events σ') as Hro'.
  destruct (load_events events σ') as [r σ0] eqn:El'. simpl in Hload', Hro'. subst r σ0.
  rewrite (m_bind_ok _ _ σ' evs σ') by done. by split.
Qed.

Lemma main_run_witness :
  (main const_hash "Fall" sep_2 dec_13 1%positive (store_of [lecture; algorithms; lab])).1
  = build_ics const_hash "Fall" sep_2 dec_13 [lecture; algorithms; lab] ∧
  stdout (main const_hash "Fall" sep_2 dec_13 1%positive (store_of [lecture; algorithms; lab])).2
  = stdout (store_of [lecture; algorithms; lab]) ++ week_view [lecture; algorithms; lab].
Proof.
  apply (main_run const_hash "Fall" sep_2 dec_13 1%positive
           (store_of [lecture; algorithms; lab]) [lecture; algorithms; lab]);
    reflexivity.
Defined.

(** ** A term of a week or more *)

(** Seven consecutive days hold every weekday. *)
Lemma weekday_in_week o w :
  0 <= w < 7 → ∃ x, o <= x <= o + 6 ∧ weekday (mk_date x) = w.
Proof.
  intros Hw. exists (o + (w - (o + 6)) mod 7).
  pose proof (Z.mod_pos_bound (w - (o + 6)) 7 ltac:(lia)) as Hk.
  split; [lia |]. unfold weekday. cbn [toordinal].
  replace (o + (w - (o + 6)) mod 7 + 6) with ((o + 6) + (w - (o + 6)) mod 7) by lia.
  rewrite Zplus_mod_idemp_r. replace (o + 6 + (w - (o + 6))) with w by lia.
  by apply Z.mod_small.
Qed.

Lemma DAY_MAP_range c w : DAY_MAP !! c = Some w → 0 <= w < 7.
Proof.
  intros [Hw Hc]%DAY_MAP_order. split; [done |].
  apply lookup_lt_Some in Hc. simpl in Hc. lia.
Qed.

(** When the term has seven days or more and the day list is not empty,
    [first_matching_date] finds a date, whatever the last day of the term
    is: the date lies in the first seven days of the term, falls on one of
    the days and no earlier date of the term does. *)
Theorem first_matching_date_within_week term_start term_end days :
  valid_date term_start → valid_date term_end →
  toordinal term_start + 6 <= toordinal term_end →
  days ≠ [] → Forall valid_code days →
  ∃ r, first_matching_date term_start term_end days = Ok (Some r) ∧
       toordinal term_start <= toordinal r <= toordinal term_start + 6 ∧
       day_matches days r ∧
       ∀ x, toordinal term_start <= x < toordinal r → ¬ day_matches days (mk_date x).
Proof.
  intros Hs He Hlen Hne Hv.
  assert (∃ x, toordinal term_start <= x <= toordinal term_start + 6 ∧
               day_matches days (mk_date x)) as (x & Hx & Hmx).
  { destruct days as [|c days]; [done |].
    inversion_clear Hv as [|? ? [w Hc] _].
    destruct (weekday_in_week (toordinal term_start) w (DAY_MAP_range c w Hc)) as (x & Hx & Hwx).
    exists x. split; [done |]. exists c. split; [by left |]. by rewrite Hwx. }
  pose proof (first_matching_date_cases term_start term_end days Hs He Hv) as Hf.
  destruct (first_matching_date term_start term_end days) as [[r|]|e].
  - destruct Hf as (Hr & Hm & Hbefore). exists r. split; [done |].
    split; [|done]. split; [lia |].
    destruct (decide (toordinal r <= x)); [lia |].
    destruct (Hbefore x); [lia | done].
  - destruct Hf as [Hnone _]. destruct (Hnone x); [lia | done].
  - destruct Hf as (_ & Hnone & _). destruct (Hnone x); [lia | done].
Qed.

Lemma first_matching_date_within_week_witness :
  ∃ r, first_matching_date sep_2 dec_13 ["MO"; "WE"] = Ok (Some r) ∧
       toordinal sep_2 <= toordinal r <= toordinal sep_2 + 6 ∧
       day_matches ["MO"; "WE"] r ∧
       ∀ x, toordinal sep_2 <= x < toordinal r → ¬ day_matches ["MO"; "WE"] (mk_date x).
Proof.
  apply (first_matching_date_within_week sep_2 dec_13 ["MO"; "WE"]).
  - vm_compute. split; discriminate.
  - vm_compute. split; discriminate.
  - vm_compute. discriminate.
  - discriminate.
  - exact valid_code_MO_WE.
Defined.

(** [first_matching_date] uses the day list as a set: for recognized codes
    the result depends on which codes are in the list, not on their order
    or on repetitions. *)
Theorem first_matching_date_day_set term_start term_end days days' :
  Forall valid_code days → Forall valid_code days' →
  (∀ c, c ∈ days ↔ c ∈ days') →
  first_matching_date term_start term_end days = first_matching_date term_start term_end days'.
Proof.
  intros Hv Hv' Hsame. unfold first_matching_date.
  destruct (map_day_index days Hv) as (idx & -> & Hidx).
  destruct (map_day_index days' Hv') as (idx' & -> & Hidx'). simpl.
  assert ((list_to_set idx : gset Z) = list_to_set idx') as ->; [|done].
  apply set_eq. intros w. rewrite !elem_of_list_to_set, Hidx, Hidx'.
  split; intros (c & Hc & Hw); exists c; (split; [by apply Hsame | done]).
Qed.

Lemma first_matching_date_day_set_witness :
  first_matching_date sep_2 dec_13 ["MO"; "WE"]
  = first_matching_date sep_2 dec_13 ["WE"; "MO"; "WE"].
Proof.
  apply (first_matching_date_day_set sep_2 dec_13 ["MO"; "WE"] ["WE"; "MO"; "WE"]).
  - exact valid_code_MO_WE.
  - repeat constructor; by eexists.
  - intros c. rewrite !elem_of_cons, !elem_of_nil. tauto.
Defined.

(** ** Validation, and what [build_ics] checks again *)

Lemma for_each_check_day_ok i ds : Forall valid_code ds → for_each (check_day i) ds = Ok tt.
Proof.
  induction 1 as [|d ds [w Hd] _ IH]; [done |].
  cbn [for_each].
  assert (check_day i d = Ok tt) as -> by (unfold check_day; by rewrite Hd).
  exact IH.
Qed.

Lemma event_valid_validate i e : event_valid e → validate_event i e = Ok tt.
Proof.
  intros (ti & ds & s & en & st & et & Ht & Hd & Hv & Hs & Hst & He & Het).
  unfold validate_event. rewrite Ht, Hd, Hs, He.
  rewrite (for_each_check_day_ok i ds Hv). simpl. by rewrite Hst, Het.
Qed.

Lemma valid_validate_from evs : Forall event_valid evs → ∀ i, validate_from i evs = Ok tt.
Proof.
  induction 1 as [|e evs He _ IH]; intros i; [done |].
  cbn [validate_from]. rewrite (event_valid_validate i e He). apply IH.
Qed.

(** The validation loop accepts a list exactly when every event of it has
    a title, a list of recognized day codes, and a start and an end that
    [parse_hhmm] reads.  Nothing else is checked: the loop does not compare
    the start with the end, and it looks at no other key. *)
Theorem validate_iff (evs : list event) :
  validate evs = Ok tt ↔ Forall event_valid evs.
Proof.
  split; [apply validate_from_valid |]. intros H. by apply valid_validate_from.
Qed.

Lemma map_day_index_ok days idx :
  map_result day_index days = Ok idx → Forall valid_code days.
Proof.
  revert idx. induction days as [|d days IH]; intros idx; [constructor |].
  cbn [map_result].
  destruct (day_index d) as [w|] eqn:Hd; [|discriminate]. simpl.
  destruct (map_result day_index days) as [idx'|] eqn:Hi; [|discriminate].
  intros _. constructor; [|by eapply IH].
  unfold day_index in Hd. unfold valid_code. by destruct (DAY_MAP !! d).
Qed.

Lemma first_matching_date_ok_codes ts te ds r :
  first_matching_date ts te ds = Ok r → Forall valid_code ds.
Proof.
  unfold first_matching_date.
  destruct (map_result day_index ds) as [idx|] eqn:Hi; [|discriminate].
  intros _. by eapply map_day_index_ok.
Qed.






(** ** Escaped text *)

Lemma has_char_app c s t : has_char c (s +:+ t) = has_char c s || has_char c t.
Proof. induction s as [|x s IH]; simpl; [done |]. by rewrite IH, orb_assoc. Qed.

Lemma has_char_smap c f s :
  (∀ x, has_char c (f x) = false) → has_char c (smap f s) = false.
Proof.
  intros Hf. induction s as [|x s IH]; simpl; [done |].
  by rewrite has_char_app, Hf, IH.
Qed.

Lemma normalize_no_cr_out s : has_char CR (normalize_newlines s) = false.
Proof.
  unfold normalize_newlines. rewrite str_replace_char. apply has_char_smap.
  intros x. destruct (Ascii.eqb_spec x CR) as [->|Hx]; [done |].
  simpl. by apply Ascii.eqb_neq in Hx as ->.
Qed.

Lemma escaped_esc_char c r :
  c ≠ CR → escaped_text_go false (esc_char c +:+ r) = escaped_text_go false r.
Proof.
  intros Hc. destruct c as [[] [] [] [] [] [] [] []]; try reflexivity. by destruct Hc.
Qed.

Lemma escaped_smap_esc t : has_char CR t = false → escaped_text (smap esc_char t) = true.
Proof.
  unfold escaped_text. induction t as [|c t IH]; [done |]. simpl has_char.
  intros [Hc Ht]%orb_false_elim. simpl smap.
  rewrite escaped_esc_char by (by apply Ascii.eqb_neq). by apply IH.
Qed.

Lemma escaped_one_line_go s : ∀ p, escaped_text_go p s = true → one_line s.
Proof.
  induction s as [|c s IH]; intros p; [done |]. cbn [escaped_text_go].
  unfold one_line. simpl has_char.
  destruct p.
  - intros [Hc Hs]%andb_true_iff. destruct (IH _ Hs) as [-> ->].
    destruct c as [[] [] [] [] [] [] [] []]; try discriminate Hc; done.
  - destruct (Ascii.eqb_spec c BACKSLASH) as [->|Hb].
    + intros Hs. by destruct (IH _ Hs) as [-> ->].
    + intros [Hc Hs]%andb_true_iff. destruct (IH _ Hs) as [-> ->].
      apply negb_true_iff in Hc.
      apply orb_false_elim in Hc as [Hc _]. apply orb_false_elim in Hc as [Hc _].
      apply orb_false_elim in Hc as [-> ->]. done.
Qed.

Lemma ics_escape_escaped s : escaped_text (ics_escape s) = true.
Proof. rewrite ics_escape_one_pass. apply escaped_smap_esc, normalize_no_cr_out. Qed.

Lemma ics_escape_one_line s : one_line (ics_escape s).
Proof. eapply escaped_one_line_go. apply ics_escape_escaped. Qed.

(** Whatever the input, the output of [ics_escape] is a well-formed
    escaped text: read from left to right it is made of ordinary
    characters, none of them a backslash, comma, semicolon, CR or LF, and
    of the four pairs backslash-backslash, backslash-n, backslash-comma
    and backslash-semicolon.  There is no CR and no LF in it, so the value
    cannot end the line of the property it is written into. *)
Theorem ics_escape_wellformed (s : string) :
  escaped_text (ics_escape s) = true ∧ one_line (ics_escape s).
Proof. split; [apply ics_escape_escaped | apply ics_escape_one_line]. Qed.

(** ** The lines of the document *)

Lemma one_line_app s t : one_line s → one_line t → one_line (s +:+ t).
Proof. intros [H1 H2] [H3 H4]. unfold one_line. by rewrite !has_char_app, H1, H2, H3, H4. Qed.

Lemma one_line_cons c s : c ≠ CR → c ≠ LF → one_line s → one_line (String c s).
Proof.
  intros H1%Ascii.eqb_neq H2%Ascii.eqb_neq [H3 H4]. unfold one_line. simpl.
  by rewrite H1, H2, H3, H4.
Qed.

Lemma pretty_N_char_digit x : pretty_N_char x ≠ CR ∧ pretty_N_char x ≠ LF.
Proof. unfold pretty_N_char. by repeat case_match. Qed.

Lemma one_line_pretty_N_go x : ∀ s, one_line s → one_line (pretty_N_go x s).
Proof.
  induction (N.lt_wf_0 x) as [x _ IH]; intros s Hs.
  assert (x = 0 ∨ 0 < x)%N as [->|?] by lia.
  - by rewrite pretty_N_go_0.
  - rewrite pretty_N_go_step by done. apply IH.
    + apply N.div_lt; lia.
    + destruct (pretty_N_char_digit (x `mod` 10)). by apply one_line_cons.
Qed.

Lemma one_line_pretty_N (x : N) : one_line (pretty x).
Proof.
  unfold pretty, pretty_N. case_decide; [done |]. by apply one_line_pretty_N_go.
Qed.

Lemma one_line_pretty_Z (x : Z) : one_line (pretty x).
Proof.
  destruct x as [|p|p]; [done | apply one_line_pretty_N |].
  apply (one_line_app "-"); [done | apply one_line_pretty_N].
Qed.

Lemma one_line_pad2 n : one_line (pad2 n).
Proof.
  unfold pad2. case_match; [apply (one_line_app "0"); [done |] |]; apply one_line_pretty_Z.
Qed.

Lemma one_line_date_basic d : one_line (date_basic d).
Proof.
  unfold date_basic. destruct (ord2ymd (toordinal d)) as [[y m] dd].
  repeat (apply one_line_app); auto using one_line_pad2, one_line_pretty_Z.
Qed.

Lemma one_line_strftime d t : one_line (strftime d t).
Proof.
  unfold strftime.
  repeat (apply one_line_app); try done; auto using one_line_pad2, one_line_date_basic.
Qed.

Lemma one_line_code c : valid_code c → one_line c.
Proof.
  intros [w [_ Hc]%DAY_MAP_order].
  apply list_elem_of_lookup_2 in Hc. unfold ORDER in Hc.
  repeat (apply elem_of_cons in Hc as [->|Hc]; [done |]). by apply elem_of_nil in Hc.
Qed.

Lemma one_line_join ds : Forall valid_code ds → one_line (str_join "," ds).
Proof.
  induction 1 as [|c ds Hc Hds IH]; [done |].
  destruct ds as [|c' ds]; [by apply one_line_code |].
  change (str_join "," (c :: c' :: ds)) with (c +:+ "," +:+ str_join "," (c' :: ds)).
  apply one_line_app; [by apply one_line_code |]. by apply (one_line_app ",").
Qed.

Lemma one_line_event_lines h ts te u e b :
  one_line u → event_lines h ts te u e = Ok b → Forall one_line b.
Proof.
  intros Hu. unfold event_lines.
  destruct (title e) as [ti|]; [|discriminate].
  destruct (days e) as [ds|]; [|discriminate].
  destruct (start e) as [s|]; [|discriminate]. simpl.
  destruct (parse_hhmm s) as [st|] eqn:Hst; [|discriminate].
  destruct (end_ e) as [en|]; [|discriminate]. simpl.
  destruct (parse_hhmm en) as [et|] eqn:Het; [|discriminate]. simpl.
  destruct (first_matching_date ts te ds) as [[r|]|] eqn:Hf; [| |discriminate].
  - apply first_matching_date_ok_codes in Hf. intros [= <-].
    repeat (apply Forall_cons; split); try apply Forall_nil; try done;
      repeat first [ apply one_line_cons; [unfold CR; discriminate | unfold LF; discriminate |]
                   | apply one_line_app ];
      try done;
      auto using one_line_pretty_Z, one_line_pad2, one_line_date_basic, one_line_strftime,
        one_line_join, ics_escape_one_line.
  - intros [= <-]. constructor.
Qed.

Lemma ics_lines_one_line h term ts te evs lines :
  ics_lines h term ts te evs = Ok lines →
  Forall one_line lines ∧ build_ics h term ts te evs = Ok (crlf_lines lines).
Proof.
  unfold build_ics. intros Hlines. rewrite Hlines. split.
  - unfold ics_lines in Hlines.
    destruct (events_lines h ts te (strftime te (mk_time 23 59 59)) evs) as [body|] eqn:Hb;
      [|discriminate].
    injection Hlines as <-.
    assert (Forall one_line body) as Hbody.
    { revert body Hb. induction evs as [|e evs IH]; intros body.
      - intros [= <-]. constructor.
      - cbn [events_lines].
        destruct (event_lines h ts te _ e) as [b|] eqn:He; [|discriminate]. simpl.
        destruct (events_lines h ts te _ evs) as [more|]; [|discriminate].
        intros [= <-]. apply Forall_app. split; [|by apply IH].
        eapply one_line_event_lines; [apply one_line_strftime | exact He]. }
    unfold ics_header. repeat (apply Forall_cons; split; [try done |]).
    + apply (one_line_app "X-WR-CALNAME:"); [done | apply ics_escape_one_line].
    + apply Forall_app. split; [done |]. by repeat constructor.
  - unfold mbind, result_bind. f_equal. apply str_join_crlf.
    unfold ics_lines in Hlines. destruct (events_lines _ _ _ _ _); [|discriminate].
    injection Hlines as <-. unfold ics_header. discriminate.
Qed.

Lemma split_crlf_line l rest :
  has_char CR l = false →
  split_crlf (l +:+ CRLF +:+ rest) = l :: split_crlf rest.
Proof.
  unfold split_crlf. change (CRLF +:+ rest) with (String CR (String LF rest)).
  induction l as [|c l IH]; intros Hl.
  - simpl. destruct (ascii_dec CR CR); [|done]. destruct (ascii_dec LF LF); [|done].
    by rewrite prefix_empty.
  - simpl in Hl. apply orb_false_elim in Hl as [Hc Hl]. apply Ascii.eqb_neq in Hc.
    simpl. destruct (ascii_dec CR c); [congruence |].
    by rewrite (IH Hl).
Qed.

Lemma split_crlf_lines ls :
  Forall one_line ls → split_crlf (crlf_lines ls) = ls ++ [""].
Proof.
  induction 1 as [|l ls [Hl _] _ IH]; [done |].
  cbn [crlf_lines]. by rewrite split_crlf_line, IH.
Qed.

(** A document that [build_ics] returns reads back line by line: no line
    it is made of holds a CR or a LF, whatever the titles, locations, notes
    and the term name are, so splitting the document at CRLF gives exactly
    the lines it was joined from, followed by the empty string behind the
    last CRLF.  No field value can break a line or start a new one. *)
Theorem build_ics_lines h term ts te evs doc :
  build_ics h term ts te evs = Ok doc →
  ∃ lines, ics_lines h term ts te evs = Ok lines ∧ Forall one_line lines ∧
           doc = crlf_lines lines ∧ split_crlf doc = lines ++ [""].
Proof.
  intros Hdoc.
  destruct (ics_lines h term ts te evs) as [lines|e] eqn:Hlines.
  - destruct (ics_lines_one_line h term ts te evs lines Hlines) as [Hone Hb].
    rewrite Hb in Hdoc. injection Hdoc as <-.
    exists lines. split; [done |]. split; [done |]. split; [done |].
    by apply split_crlf_lines.
  - unfold build_ics in Hdoc. by rewrite Hlines in Hdoc.
Qed.

Lemma build_ics_lines_witness :
  ∃ doc, build_ics const_hash "Fall; evening" sep_2 dec_13 [algorithms_in_room] = Ok doc ∧
  ∃ lines, ics_lines const_hash "Fall; evening" sep_2 dec_13 [algorithms_in_room] = Ok lines ∧
           Forall one_line lines ∧
           doc = crlf_lines lines ∧ split_crlf doc = lines ++ [""].
Proof.
  eexists. split; [vm_compute; reflexivity |].
  apply (build_ics_lines const_hash "Fall; evening" sep_2 dec_13 [algorithms_in_room]).
  vm_compute. reflexivity.
Defined.

(** ** The block of one event *)

(** The VEVENT block of an event, when there is one: DTSTART is the
    earliest date of the term that falls on one of the event's days,
    combined with the parsed start; DTEND is that same date combined with
    the parsed end, also when the end is not later than the start; the
    rule repeats the day list as written; SUMMARY, LOCATION and
    DESCRIPTION are escaped, an absent location or note giving an empty
    value. *)
Theorem event_block h ts te u e b :
  valid_date ts → valid_date te →
  event_lines h ts te u e = Ok b → b ≠ [] →
  ∃ ti ds s en st et first,
    title e = Some ti ∧ days e = Some ds ∧ start e = Some s ∧ end_ e = Some en ∧
    parse_hhmm s = Ok st ∧ parse_hhmm en = Ok et ∧
    (toordinal ts <= toordinal first <= toordinal te ∧ day_matches ds first ∧
     ∀ x, toordinal ts <= x < toordinal first → ¬ day_matches ds (mk_date x)) ∧
    b = [ "BEGIN:VEVENT";
          "UID:" +:+ uid_of h (event_key ts te ti ds s en);
          "SUMMARY:" +:+ ics_escape ti;
          "DTSTART:" +:+ strftime first st;
          "DTEND:" +:+ strftime first et;
          "RRULE:FREQ=WEEKLY;BYDAY=" +:+ str_join "," ds +:+ ";UNTIL=" +:+ u;
          "LOCATION:" +:+ ics_escape (default "" (location e));
          "DESCRIPTION:" +:+ ics_escape (default "" (notes e));
          "END:VEVENT" ].
Proof.
  intros Hts Hte. unfold event_lines.
  destruct (title e) as [ti|]; [|discriminate].
  destruct (days e) as [ds|]; [|discriminate].
  destruct (start e) as [s|]; [|discriminate]. cbn [getitem mbind result_bind].
  destruct (parse_hhmm s) as [st|] eqn:Hst; [|discriminate].
  destruct (end_ e) as [en|]; [|discriminate]. cbn [getitem mbind result_bind].
  destruct (parse_hhmm en) as [et|] eqn:Het; [|discriminate]. cbn [mbind result_bind].
  destruct (first_matching_date ts te ds) as [[first|]|] eqn:Hf;
    cbn [mbind result_bind]; [| by intros [= <-] | discriminate].
  intros [= <-] _.
  pose proof (first_matching_date_cases ts te ds Hts Hte
                (first_matching_date_ok_codes ts te ds _ Hf)) as Hc.
  rewrite Hf in Hc.
  by exists ti, ds, s, en, st, et, first.
Qed.

Lemma event_block_witness :
  ∃ b, event_lines const_hash sep_2 dec_13 "20241213T235959" algorithms_in_room = Ok b ∧
  ∃ ti ds s en st et first,
    title algorithms_in_room = Some ti ∧ days algorithms_in_room = Some ds ∧
    start algorithms_in_room = Some s ∧ end_ algorithms_in_room = Some en ∧
    parse_hhmm s = Ok st ∧ parse_hhmm en = Ok et ∧
    (toordinal sep_2 <= toordinal first <= toordinal dec_13 ∧ day_matches ds first ∧
     ∀ x, toordinal sep_2 <= x < toordinal first → ¬ day_matches ds (mk_date x)) ∧
    b = [ "BEGIN:VEVENT";
          "UID:" +:+ uid_of const_hash (event_key sep_2 dec_13 ti ds s en);
          "SUMMARY:" +:+ ics_escape ti;
          "DTSTART:" +:+ strftime first st;
          "DTEND:" +:+ strftime first et;
          "RRULE:FREQ=WEEKLY;BYDAY=" +:+ str_join "," ds +:+ ";UNTIL=" +:+ "20241213T235959";
          "LOCATION:" +:+ ics_escape (default "" (location algorithms_in_room));
          "DESCRIPTION:" +:+ ics_escape (default "" (notes algorithms_in_room));
          "END:VEVENT" ].
Proof.
  eexists. split; [vm_compute; reflexivity |].
  apply (event_block const_hash sep_2 dec_13 "20241213T235959" algorithms_in_room).
  - vm_compute. split; discriminate.
  - vm_compute. split; discriminate.
  - vm_compute. reflexivity.
  - discriminate.
Defined.

(** ** The script from start to end *)

(** The store that holds a loaded event list gives the events back. *)
Lemma store_of_objs evs :
  objs (store_of evs) (Pos.of_nat <$> seq 2 (length evs)) evs.
Proof.
  unfold objs, store_of. cbv zeta. cbn [heap].
  remember (Pos.of_nat <$> seq 2 (length evs)) as refs eqn:Erefs.
  assert (length refs = length evs) as Hlen by (subst refs; by rewrite length_fmap, length_seq).
  assert (NoDup refs) as Hnd.
  { subst refs. apply NoDup_fmap_2_strong; [|apply NoDup_seq].
    intros x y Hx%elem_of_seq Hy%elem_of_seq Heq. apply Nat2Pos.inj; [lia | lia | done]. }
  assert (∀ r, r ∈ refs → r ≠ 1%positive) as Hne.
  { subst refs. intros r (k & -> & Hk%elem_of_seq)%list_elem_of_fmap. lia. }
  clear Erefs.
  apply Forall2_same_length_lookup_2; [done |].
  intros i r e Hr He.
  rewrite lookup_insert_ne by (apply not_eq_sym, Hne; by eapply list_elem_of_lookup_2).
  apply elem_of_list_to_map_1.
  - rewrite fst_zip; [done |]. rewrite length_fmap. unfold loc. by rewrite Hlen.
  - apply list_elem_of_lookup. exists i.
    rewrite lookup_zip_with. unfold loc in *. rewrite Hr. simpl.
    by rewrite list_lookup_fmap, He.
Qed.

Lemma load_events_objs events σ refs evs :
  heap σ !! events = Some (OList refs) → objs σ refs evs →
  load_events events σ = (Ok evs, σ).
Proof.
  intros Hl Hobjs. unfold load_events.
  rewrite (m_bind_ok _ _ σ refs σ) by by apply read_list_obj.
  clear Hl. induction Hobjs as [|r e refs evs Hr _ IH]; [done |].
  cbn [m_map]. rewrite (m_bind_ok _ _ σ e σ) by by apply read_dict_obj.
  by rewrite (m_bind_ok _ _ σ evs σ) by done.
Qed.

Lemma load_events_store_of evs :
  load_events 1%positive (store_of evs) = (Ok evs, store_of evs).
Proof.
  eapply load_events_objs; [|apply store_of_objs].
  unfold store_of. cbn [heap]. apply lookup_insert_eq.
Qed.

(** A list that fails validation stops [main] with the store as it was. *)
Lemma main_invalid h term ts te events σ evs e :
  load_events events σ = (Ok evs, σ) → validate evs = Raise e →
  main h term ts te events σ = (Raise e, σ).
Proof.
  intros Hload Hval. unfold main.
  rewrite (m_bind_ok _ _ σ evs σ) by done.
  unfold m_bind at 1. unfold m_lift. by rewrite Hval.
Qed.

Lemma main_valid h term ts te events σ evs :
  load_events events σ = (Ok evs, σ) → validate evs = Ok tt →
  ∃ σ', main h term ts te events σ = (build_ics h term ts te evs, σ') ∧
        stdout σ' = stdout σ ++ week_view evs.
Proof.
  intros Hload Hval.
  assert ((load_events events σ).1 = Ok evs) as Hload1 by by rewrite Hload.
  pose proof (validate_has_keys evs Hval) as Hk.
  destruct (print_week_view_output events σ evs Hload1 Hk) as [Hok Hout].
  pose proof (load_events_mono events σ _ evs (heap_grows_print_week_view events σ) Hload1)
    as Hload'.
  unfold main.
  rewrite (m_bind_ok _ _ σ evs σ) by done.
  rewrite (m_bind_ok _ _ σ tt σ) by (by rewrite Hval).
  destruct (print_week_view events σ) as [r σ'] eqn:Ep. simpl in Hok, Hout, Hload'. subst r.
  rewrite (m_bind_ok _ _ σ tt σ') by done.
  unfold build_ics_at.
  pose proof (readonly_load_events events σ') as Hro'.
  destruct (load_events events σ') as [r σ0] eqn:El'. simpl in Hload', Hro'. subst r σ0.
  rewrite (m_bind_ok _ _ σ' evs σ') by done. by exists σ'.
Qed.

(** Standard output takes all the strings, or a part of them from the
    start. *)
Lemma put_all_taken put lines :
  match put_all put lines with
  | (Done _, taken) => taken = lines
  | (Failed _, taken) => ∃ l rest, lines = taken ++ l :: rest ∧ put l ≠ Done tt
  end.
Proof.
  induction lines as [|l lines IH]; [done |]. cbn [put_all].
  destruct (put l) as [[]|e] eqn:Hl; [|exists l, lines; split; [done | by rewrite Hl]].
  destruct (put_all put lines) as [[[]|e] taken].
  - by rewrite IH.
  - destruct IH as (l' & rest & -> & Hl'). by exists l', rest.
Qed.

(** The cases of a run whose configuration has been read. *)
Lemma script_effects_cases h json_loads fromisoformat write_file resolve put fs
    cfg term ts te evs :
  load_courses json_loads (Path "courses.json") fs = Done cfg →
  read_config fromisoformat cfg = Done (term, ts, te, evs) →
  script h json_loads fromisoformat write_file resolve put fs =
  match validate evs with
  | Raise e => (Failed (Raised e), mk_world fs [])
  | Ok _ =>
      match put_all put (week_view evs) with
      | (Failed e, taken) => (Failed e, mk_world fs taken)
      | (Done _, _) =>
          match build_ics h term ts te evs with
          | Raise e => (Failed (Raised e), mk_world fs (week_view evs))
          | Ok ics_text =>
              match write_file OUT_NAME ics_text with
              | NotOpened e => (Failed e, mk_world fs (week_view evs))
              | Broken e partial =>
                  (Failed e, mk_world (<[OUT_NAME := partial]> fs) (week_view evs))
              | Written =>
                  let written := <[OUT_NAME := ics_text]> fs in
                  match resolve OUT_NAME with
                  | Failed e => (Failed e, mk_world written (week_view evs))
                  | Done resolved =>
                      match put (exported_line resolved) with
                      | Failed e => (Failed e, mk_world written (week_view evs))
                      | Done _ =>
                          (Done tt,
                           mk_world written (week_view evs ++ [exported_line resolved]))
                      end
                  end
              end
          end
      end
  end.
Proof.
  intros Hload Hcfg. unfold script. rewrite Hload, Hcfg.
  pose proof (load_events_store_of evs) as Hev.
  destruct (validate evs) as [[]|e] eqn:Hval.
  - destruct (main_valid h term ts te 1%positive (store_of evs) evs Hev Hval)
      as (σ' & -> & Hout).
    rewrite Hout. cbn [stdout store_of app].
    pose proof (put_all_taken put (week_view evs)) as Htaken.
    destruct (put_all put (week_view evs)) as [[[]|e] taken]; [subst taken | done].
    destruct (build_ics h term ts te evs) as [text|e]; [|done].
    unfold export, write_text. by destruct (write_file OUT_NAME text).
  - by rewrite (main_invalid h term ts te 1%positive (store_of evs) evs e Hev Hval).
Qed.

(** The effects of a run, once the configuration has been read.  If the
    event list fails validation the script stops with the validation
    error, having printed nothing and written no file.  If the list passes,
    the weekly view is printed; when standard output refuses one of its
    lines the run ends there, with the lines before it printed and no file
    written.  If then [build_ics] raises, no file is written.  Otherwise
    the document that [build_ics] returns is handed to [write_text]: when
    opening the file raises, the file is as it was; when writing raises
    after the file was opened, the file is left with what was written, not
    with the document; when the file is written it holds the document,
    also when resolving the path or printing the last line raises
    afterwards; and only when nothing raises is the line that names the
    file printed. *)
Theorem script_effects h json_loads fromisoformat write_file resolve put fs cfg term ts te evs :
  load_courses json_loads (Path "courses.json") fs = Done cfg →
  read_config fromisoformat cfg = Done (term, ts, te, evs) →
  script h json_loads fromisoformat write_file resolve put fs =
  match validate evs with
  | Raise e => (Failed (Raised e), mk_world fs [])
  | Ok _ =>
      match put_all put (week_view evs) with
      | (Failed e, taken) => (Failed e, mk_world fs taken)
      | (Done _, _) =>
          match build_ics h term ts te evs with
          | Raise e => (Failed (Raised e), mk_world fs (week_view evs))
          | Ok ics_text =>
              match write_file OUT_NAME ics_text with
              | NotOpened e => (Failed e, mk_world fs (week_view evs))
              | Broken e partial =>
                  (Failed e, mk_world (<[OUT_NAME := partial]> fs) (week_view evs))
              | Written =>
                  let written := <[OUT_NAME := ics_text]> fs in
                  match resolve OUT_NAME with
                  | Failed e => (Failed e, mk_world written (week_view evs))
                  | Done resolved =>
                      match put (exported_line resolved) with
                      | Failed e => (Failed e, mk_world written (week_view evs))
                      | Done _ =>
                          (Done tt,
                           mk_world written (week_view evs ++ [exported_line resolved]))
                      end
                  end
              end
          end
      end
  end.
Proof. apply script_effects_cases. Qed.

Lemma script_effects_witness :
  script const_hash sample_json_loads sample_fromisoformat sample_write_file sample_resolve
    sample_put sample_fs =
  match validate [lecture; algorithms; lab] with
  | Raise e => (Failed (Raised e), mk_world sample_fs [])
  | Ok _ =>
      match put_all sample_put (week_view [lecture; algorithms; lab]) with
      | (Failed e, taken) => (Failed e, mk_world sample_fs taken)
      | (Done _, _) =>
          match build_ics const_hash "Fall 2024" sep_2 dec_13 [lecture; algorithms; lab] with
          | Raise e =>
              (Failed (Raised e), mk_world sample_fs (week_view [lecture; algorithms; lab]))
          | Ok ics_text =>
              match sample_write_file OUT_NAME ics_text with
              | NotOpened e =>
                  (Failed e, mk_world sample_fs (week_view [lecture; algorithms; lab]))
              | Broken e partial =>
                  (Failed e, mk_world (<[OUT_NAME := partial]> sample_fs)
                                      (week_view [lecture; algorithms; lab]))
              | Written =>
                  let written := <[OUT_NAME := ics_text]> sample_fs in
                  match sample_resolve OUT_NAME with
                  | Failed e =>
                      (Failed e, mk_world written (week_view [lecture; algorithms; lab]))
                  | Done resolved =>
                      match sample_put (exported_line resolved) with
                      | Failed e =>
                          (Failed e, mk_world written (week_view [lecture; algorithms; lab]))
                      | Done _ =>
                          (Done tt,
                           mk_world written (week_view [lecture; algorithms; lab]
                                             ++ [exported_line resolved]))
                      end
                  end
              end
          end
      end
  end.
Proof.
  apply (script_effects const_hash sample_json_loads sample_fromisoformat sample_write_file
           sample_resolve sample_put sample_fs sample_config "Fall 2024" sep_2 dec_13
           [lecture; algorithms; lab]);
    reflexivity.
Defined.

(** What a run leaves behind, for every file system and every behaviour
    of the library and the system.  No file other than
    [school_calendar.ics] is changed.  The files are changed only by
    [write_text], the last step but two: when they differ after the run,
    the configuration was read, the events passed validation, the weekly
    view was printed and [build_ics] returned a document, which
    [write_text] was then given.  A run that ends without an exception has
    written exactly that document and printed the weekly view and the line
    that names the file.  When [courses.json] is missing the run ends with
    [FileNotFoundError] before anything is parsed or printed. *)
Theorem script_frame h json_loads fromisoformat write_file resolve put fs :
  let '(r, w) := script h json_loads fromisoformat write_file resolve put fs in
  (∀ p, p ≠ OUT_NAME → files w !! p = fs !! p) ∧
  (files w ≠ fs ∨ r = Done tt →
     ∃ cfg term ts te evs ics_text,
       load_courses json_loads (Path "courses.json") fs = Done cfg ∧
       read_config fromisoformat cfg = Done (term, ts, te, evs) ∧
       validate evs = Ok tt ∧
       build_ics h term ts te evs = Ok ics_text ∧
       (files w = <[OUT_NAME := ics_text]> fs ∨
        ∃ e partial, write_file OUT_NAME ics_text = Broken e partial ∧
                     files w = <[OUT_NAME := partial]> fs) ∧
       (r = Done tt →
          files w = <[OUT_NAME := ics_text]> fs ∧
          ∃ resolved, resolve OUT_NAME = Done resolved ∧
                      console w = week_view evs ++ [exported_line resolved]) ∧
       (r ≠ Done tt → console w = week_view evs)) ∧
  (fs !! "courses.json" = None →
     r = Failed (FileNotFoundError "Missing courses.json in .") ∧ w = mk_world fs []).
Proof.
  destruct (load_courses json_loads (Path "courses.json") fs) as [cfg|e0] eqn:Hload.
  2:{ unfold script. rewrite Hload. split; [done |]. split; [by intros [?|?] |].
      intros Hnone. unfold load_courses in Hload. cbn [Path path_name path_parent] in Hload.
      rewrite Hnone in Hload. by injection Hload as <-. }
  destruct (read_config fromisoformat cfg) as [[[[term ts] te] evs]|e0] eqn:Hcfg.
  2:{ unfold script. rewrite Hload, Hcfg. split; [done |]. split; [by intros [?|?] |].
      intros Hnone. unfold load_courses in Hload. cbn [Path path_name path_parent] in Hload.
      by rewrite Hnone in Hload. }
  rewrite (script_effects_cases h json_loads fromisoformat write_file resolve put fs
             cfg term ts te evs Hload Hcfg).
  assert (fs !! "courses.json" = None → False) as Hsome.
  { intros Hnone. unfold load_courses in Hload. cbn [Path path_name path_parent] in Hload.
    by rewrite Hnone in Hload. }
  destruct (validate evs) as [[]|e] eqn:Hval.
  2:{ split; [done |]. split; [by intros [?|?] | by intros ?%Hsome]. }
  destruct (put_all put (week_view evs)) as [[[]|e] taken].
  2:{ split; [done |]. split; [by intros [?|?] | by intros ?%Hsome]. }
  destruct (build_ics h term ts te evs) as [text|e] eqn:Hbuild.
  2:{ split; [done |]. split; [by intros [?|?] | by intros ?%Hsome]. }
  destruct (write_file OUT_NAME text) as [|e|e partial] eqn:Hw.
  - cbv zeta.
    destruct (resolve OUT_NAME) as [resolved|e] eqn:Hres.
    + destruct (put (exported_line resolved)) as [[]|e] eqn:Hput.
      * split; [intros p Hp; cbn [files]; by rewrite lookup_insert_ne |].
        split; [|by intros ?%Hsome]. intros _.
        exists cfg, term, ts, te, evs, text. repeat split; try done.
        -- by left.
        -- by exists resolved.
      * split; [intros p Hp; cbn [files]; by rewrite lookup_insert_ne |].
        split; [|by intros ?%Hsome]. intros _.
        exists cfg, term, ts, te, evs, text. repeat split; try done. by left.
    + split; [intros p Hp; cbn [files]; by rewrite lookup_insert_ne |].
      split; [|by intros ?%Hsome]. intros _.
      exists cfg, term, ts, te, evs, text. repeat split; try done. by left.
  - split; [done |]. split; [by intros [?|?] | by intros ?%Hsome].
  - split; [intros p Hp; cbn [files]; by rewrite lookup_insert_ne |].
    split; [|by intros ?%Hsome]. intros _.
    exists cfg, term, ts, te, evs, text. repeat split; try done.
    right. by exists e, partial.
Qed.
